(** * quasar-ssg-helper: the SSG orchestrator of [src/index.js]

    The module exports one asynchronous function, [generateSsg], which
    merges the caller's parameters into [defaultParam] and hands them to
    [_generateSsg].  That function prepares the output directory, resolves
    a port, spawns the SSR server as a child process, registers a readiness
    callback and returns; the callback later fetches the root document,
    writes it and kills the child.

    The embedding is a reactive one.  JavaScript values are a small
    inductive type with objects as finite maps.  The asynchronous code is a
    transition function [step]: a state records where [_generateSsg] is
    suspended and which callbacks and library operations are outstanding,
    an event is one turn of the Node.js event loop (a library promise
    settles, the child writes to its standard output, the timer fires), and
    each turn yields the list of observable actions the code performs
    during it.  A run is a list of events; its trace is the concatenation of
    the actions. *)

From Stdlib Require Import ZArith Lia Ascii String.
From stdpp Require Import base strings pretty list gmap fin_maps.

Open Scope Z_scope.

(** ** JavaScript values *)

(** Numbers.  Ports, delays and everything else the module computes with
    are integers or [NaN]; fractions and infinities are not represented. *)
Inductive num :=
| NaN
| Fin (z : Z).

(** Values.  [VFun] stands for a function, which the module never calls and
    never looks into. *)
#[warnings="-register-all"]
Inductive val :=
| VUndef
| VBool (b : bool)
| VNum (n : num)
| VStr (s : string)
| VArr (l : list val)
| VObj (o : gmap string val)
| VFun.

(** ToBoolean on a number: [0] and [NaN] are falsy. *)
Definition truthy (n : num) : bool :=
  match n with
  | NaN => false
  | Fin z => negb (z =? 0)
  end.

(** [a > b] and [a <= b] on numbers: any comparison with [NaN] is false. *)
Definition num_gt (a b : num) : bool :=
  match a, b with
  | Fin x, Fin y => y <? x
  | _, _ => false
  end.

Definition num_le (a b : num) : bool :=
  match a, b with
  | Fin x, Fin y => x <=? y
  | _, _ => false
  end.

(** [Number(s)] for a string: blanks around the text are skipped, the empty
    text is [0], and a run of decimal digits with an optional sign is its
    value.  Every other string is read as [NaN]: fractions, exponents, radix
    prefixes and [Infinity] have no place in [num] and are not parsed. *)
Definition digit_of (c : ascii) : option Z :=
  let n := Z.of_nat (nat_of_ascii c) in
  if (48 <=? n) && (n <=? 57) then Some (n - 48) else None.

(** Tab, line feed, vertical tab, form feed, carriage return and space. *)
Definition is_blank (c : ascii) : bool :=
  let n := Z.of_nat (nat_of_ascii c) in
  ((9 <=? n) && (n <=? 13)) || (n =? 32).

Fixpoint all_blank (s : string) : bool :=
  match s with
  | EmptyString => true
  | String c r => is_blank c && all_blank r
  end.

Fixpoint drop_blanks (s : string) : string :=
  match s with
  | EmptyString => EmptyString
  | String c r => if is_blank c then drop_blanks r else s
  end.

(** The digits read so far have value [acc]; the rest is more digits and
    then blanks only. *)
Fixpoint digits_from (acc : Z) (s : string) : num :=
  match s with
  | EmptyString => Fin acc
  | String c r =>
      match digit_of c with
      | Some d => digits_from (10 * acc + d) r
      | None => if all_blank s then Fin acc else NaN
      end
  end.

(** An unsigned decimal literal: at least one digit. *)
Definition unsigned (s : string) : num :=
  match s with
  | EmptyString => NaN
  | String c _ =>
      match digit_of c with
      | Some _ => digits_from 0 s
      | None => NaN
      end
  end.

Definition negate (n : num) : num :=
  match n with
  | NaN => NaN
  | Fin z => Fin (- z)
  end.

Definition string_to_number (s : string) : num :=
  match drop_blanks s with
  | EmptyString => Fin 0
  | String "+"%char r => unsigned r
  | String "-"%char r => negate (unsigned r)
  | t => unsigned t
  end.

(** [Number(v)].  An array is converted through its string form: the empty
    array is the empty string, a one-element array is its element (an
    [undefined] element prints as the empty string), and a longer array
    contains a comma, which is not a number. *)
Fixpoint Number (v : val) : num :=
  match v with
  | VUndef => NaN
  | VBool b => if b then Fin 1 else Fin 0
  | VNum n => n
  | VStr s => string_to_number s
  | VArr [] => Fin 0
  | VArr [x] =>
      match x with
      | VUndef => Fin 0
      | VBool _ => NaN
      | _ => Number x
      end
  | VArr (_ :: _ :: _) => NaN
  | VObj _ => NaN
  | VFun => NaN
  end.

(** [typeof v]. *)
Definition typeof (v : val) : string :=
  match v with
  | VUndef => "undefined"
  | VBool _ => "boolean"
  | VNum _ => "number"
  | VStr _ => "string"
  | VArr _ | VObj _ => "object"
  | VFun => "function"
  end.

(** Errors thrown by the language ([TypeError]), by the module itself
    ([Error]) and by the libraries it calls ([LibError]). *)
Inductive error :=
| TypeError (msg : string)
| Error (msg : string)
| LibError (msg : string).

(** Indexed read [v[i]] on a value that is not [undefined]. *)
Definition index (v : val) (i : nat) : val :=
  match v with
  | VArr l => default VUndef (l !! i)
  | VObj o => default VUndef (o !! pretty i)
  | _ => VUndef
  end.

(** ** Module-level state: [process.cwd()] and [envPort] *)

Record process := {
  process_cwd : string;
  (** [const envPort = Number(process.env.PORT)], [NaN] when unset *)
  envPort : num
}.

(** ** [defaultParam] and the merge done by [generateSsg] *)

Definition defaultDir : gmap string val :=
  {[ "ssr" := VStr "dist/ssr";
     "static" := VStr "dist/ssr/www";
     "ssg" := VStr "dist/ssg" ]}.

Definition defaultParam (p : process) : gmap string val :=
  {[ "cwd" := VStr (process_cwd p);
     "port" := VUndef;
     "wait" := VStr "stdout";
     "dir" := VObj defaultDir ]}.

(** [{ ...defaultParam, ...parObj }]: every own key of [parObj] wins. *)
Definition merge (p : process) (parObj : gmap string val) : gmap string val :=
  parObj ∪ defaultParam p.

(** ** Actions and events *)

(** How a promise settles. *)
Inductive outcome :=
| Fulfilled
| Rejected (e : error).

(** Asynchronous library operations the module starts; each returns a
    promise that the event loop settles in a later turn. *)
Inductive op :=
| pathExists (path : val)
| ensureDir (path : val)
| emptyDir (path : val)
| copy (src dest : val)
| getPort (range : option (val * val))
| get (url_port : val)
| outputFile (path : string) (data : string).

(** Options of [child_process.spawn] as [spawnSrv] fills them in. *)
Record spawn_options := {
  opt_cwd : val;
  stdio : list val;
  env_PORT : val
}.

(** What the module does, in program order. *)
Inductive action :=
| Call (o : op)
| AssertionFailed (msg : string)
| spawn (command : string) (args : list val) (options : spawn_options)
| On (eventName : val)
| SetTimeout (ms : num)
| Kill
| Return (r : outcome)
| UnhandledRejection (e : error).

Inductive result (A : Type) :=
| Ok (a : A)
| Failed (e : error).
Arguments Ok {A} a.
Arguments Failed {A} e.

(** One turn of the event loop. *)
Inductive event :=
| pathExists_done (b : bool)
| ensureDir_done (r : result unit)
| emptyDir_done (r : result unit)
| copy_done (r : result unit)
| getPort_done (r : result num)
| stdout_data (chunk : string)
| ipc_message (m : val)
| timeout
| get_done (r : result string)
| outputFile_done (r : result unit).

(** ** State of one invocation *)

(** The destructured parameter [{ cwd, port, wait, dir }]; [port] is
    assigned to during port resolution. *)
Record locals := {
  cwd : val;
  port : val;
  wait : val;
  dir : val
}.

(** Where [_generateSsg] is suspended. *)
Inductive control :=
| AtPathExists
| AtEnsureDir
| AtGetPort
| Settled (r : outcome).

Record state := {
  vars : locals;
  pc : control;
  (** the promises of [emptyDir] and [copy], which nothing awaits *)
  emptyDir_pending : bool;
  copy_pending : bool;
  (** the child, with the [stdio[1]] option it was spawned with *)
  srvProc : option val;
  (** event name given to [srvProc.stdout.on] *)
  listener : option val;
  timer : bool;
  (** callbacks suspended at [await captureIndex(port)] *)
  fetching : nat;
  (** [outputFile] promises in flight *)
  writing : nat
}.

Definition set_pc (c : control) (s : state) : state :=
  {| vars := vars s; pc := c;
     emptyDir_pending := emptyDir_pending s; copy_pending := copy_pending s;
     srvProc := srvProc s; listener := listener s; timer := timer s;
     fetching := fetching s; writing := writing s |}.

Definition set_port (v : val) (s : state) : state :=
  {| vars := {| cwd := cwd (vars s); port := v;
                wait := wait (vars s); dir := dir (vars s) |};
     pc := pc s;
     emptyDir_pending := emptyDir_pending s; copy_pending := copy_pending s;
     srvProc := srvProc s; listener := listener s; timer := timer s;
     fetching := fetching s; writing := writing s |}.

Definition set_pending (e c : bool) (s : state) : state :=
  {| vars := vars s; pc := pc s;
     emptyDir_pending := e; copy_pending := c;
     srvProc := srvProc s; listener := listener s; timer := timer s;
     fetching := fetching s; writing := writing s |}.

Definition set_child (child : option val) (l : option val) (t : bool)
    (s : state) : state :=
  {| vars := vars s; pc := pc s;
     emptyDir_pending := emptyDir_pending s; copy_pending := copy_pending s;
     srvProc := child; listener := l; timer := t;
     fetching := fetching s; writing := writing s |}.

Definition set_io (f w : nat) (s : state) : state :=
  {| vars := vars s; pc := pc s;
     emptyDir_pending := emptyDir_pending s; copy_pending := copy_pending s;
     srvProc := srvProc s; listener := listener s; timer := timer s;
     fetching := f; writing := w |}.

(** ** The code *)

(** [assert] is the one of [console] (line 12), which since Node.js 10
    does not throw: a false condition prints the message and execution
    continues. *)
Definition assert (cond : bool) (msg : string) : list action :=
  if cond then [] else [AssertionFailed msg].

(** Property read [v.k] on a value that is not [undefined]. *)
Definition prop (v : val) (k : string) : val :=
  match v with
  | VObj o => default VUndef (o !! k)
  | _ => VUndef
  end.

(** [subprocess.stdout] is a stream when [stdio[1]] is ['pipe'] or left
    [undefined], and [null] otherwise. *)
Definition has_stdout (stdout : val) : bool :=
  match stdout with
  | VUndef => true
  | VStr s => String.eqb s "pipe"
  | _ => false
  end.


Definition includes (l : list string) (w : string) : bool :=
  existsb (String.eqb w) l.

(** [spawnSrv], lines 124-133.  [child_process.spawn] returns the handle
    of the child at once.  It throws for a [cwd] that is neither a string
    nor [undefined], and for an entry of [stdio] that is neither
    [undefined] nor one of its keywords, such as a function or an object. *)
Definition valid_cwd (cwd : val) : bool :=
  match cwd with
  | VUndef | VStr _ => true
  | _ => false
  end.

Definition valid_stdio (stdout : val) : bool :=
  match stdout with
  | VUndef => true
  | VStr s => includes ["pipe"; "ipc"; "ignore"; "inherit"] s
  | _ => false
  end.

Definition spawnSrv (cwd ssrDir port stdout : val) : error + action :=
  if valid_cwd cwd then
    if valid_stdio stdout then
      inr (spawn "node" [ssrDir]
             {| opt_cwd := cwd;
                stdio := [VStr "ignore"; stdout; VStr "ignore"];
                env_PORT := port |})
    else inl (TypeError "The argument 'stdio' is invalid")
  else inl (TypeError "The 'options.cwd' property must be of type string").

(** [captureIndex], lines 141-143: the fetch, and what its [.then] does
    with the response once the fetch has fulfilled.  The promise of
    [outputFile] is dropped. *)
Definition captureIndex (port : val) : action := Call (get port).

Definition captureIndex_then (data : string) : action :=
  Call (outputFile "dist/ssg/index.html" data).

(** The readiness callback, lines 95-98 and 107-110, up to its [await]. *)
Definition callback (s : state) : state * list action :=
  (set_io (S (fetching s)) (writing s) s, [captureIndex (port (vars s))]).

(** The object literals indexed by [wait] on lines 93 and 95. *)
Definition stdout_of : gmap string val :=
  {[ "stdout" := VStr "pipe"; "ipc" := VStr "ipc" ]}.

Definition event_of : gmap string val :=
  {[ "stdout" := VStr "data"; "ipc" := VStr "message" ]}.

(** The names every object literal inherits from [Object.prototype]: all
    are functions but [__proto__], which is the prototype itself. *)
Definition Object_prototype : list string :=
  ["constructor"; "hasOwnProperty"; "isPrototypeOf"; "propertyIsEnumerable";
   "toLocaleString"; "toString"; "valueOf"; "__defineGetter__";
   "__defineSetter__"; "__lookupGetter__"; "__lookupSetter__"].

(** [o[k]] on an object literal [o] and a string [k]: the own property, else
    what the literal inherits, else [undefined]. *)
Definition member (o : gmap string val) (k : string) : val :=
  match o !! k with
  | Some v => v
  | None =>
      if String.eqb k "__proto__" then VObj ∅
      else if includes Object_prototype k then VFun
      else VUndef
  end.

(** Lines 82-113: the range check on the resolved port, then the readiness
    strategy.  A name [wait] that is no key of the two object literals
    indexes them to [undefined], or to what they inherit. *)
Definition launch (s : state) : state * list action :=
  let v := vars s in
  let n := Number (port v) in
  let checked :=
    assert (num_gt n (Fin 0) && num_le n (Fin 65535)) "No available ports" in
  match wait v with
  | VStr w =>
      let stdout := member stdout_of w in
      let name := member event_of w in
      let acts :=
        checked
        ++ assert (includes ["stdout"; "ipc"] w)
             "Invalid String parameter.
Allowed String parameters:
  - stdout" in
      match spawnSrv (cwd v) (prop (dir v) "ssr") (port v) stdout with
      | inl e => (set_pc (Settled (Rejected e)) s, acts ++ [Return (Rejected e)])
      | inr child =>
          if has_stdout stdout then
            (set_pc (Settled Fulfilled)
               (set_child (Some stdout) (Some name) false s),
             acts ++ [child; On name; Return Fulfilled])
          else
            let e := TypeError "Cannot read properties of null (reading 'on')" in
            (set_pc (Settled (Rejected e)) (set_child (Some stdout) None false s),
             acts ++ [child; Return (Rejected e)])
      end
  | VNum ms =>
      let acts :=
        checked
        ++ assert (num_gt ms (Fin 0))
             "Invalid Number parameter.
Number parameters must be greater than zero" in
      match spawnSrv (cwd v) (prop (dir v) "ssr") (port v) (VStr "ignore") with
      | inl e => (set_pc (Settled (Rejected e)) s, acts ++ [Return (Rejected e)])
      | inr child =>
          (set_pc (Settled Fulfilled)
             (set_child (Some (VStr "ignore")) None true s),
           acts ++ [child; SetTimeout ms; Return Fulfilled])
      end
  | _ =>
      let e := Error "Invalid parameters" in
      (set_pc (Settled (Rejected e)) s, checked ++ [Return (Rejected e)])
  end.

(** Lines 72-80: what the port becomes.  Either a value is at hand, or the
    free-port search is called, with a range or without. *)
Inductive resolution :=
| Use (v : val)
| Search (range : option (val * val)).

Definition resolve (p : process) (port : val) : resolution :=
  if truthy (Number port) then Use port
  else if truthy (envPort p) then Use (VNum (envPort p))
  else if String.eqb (typeof port) (typeof (VArr []))
       then Search (Some (index port 0, index port 1))
       else Search None.

Definition resolvePort (p : process) (s : state) : state * list action :=
  match resolve p (port (vars s)) with
  | Use v => launch (set_port v s)
  | Search range => (set_pc AtGetPort s, [Call (getPort range)])
  end.

(** Lines 68-70.  The arguments of the two [.then] calls are evaluated on
    the spot, so [emptyDir] and [copy] are called right after [ensureDir];
    [.then] ignores an argument that is no function, and the awaited
    promise is that of [ensureDir]. *)
Definition prepare (s : state) : state * list action :=
  let d := dir (vars s) in
  (set_pc AtEnsureDir (set_pending true true s),
   [Call (ensureDir (prop d "ssg"));
    Call (emptyDir (prop d "ssg"));
    Call (copy (prop d "static") (prop d "ssg"))]).

Definition throw (e : error) (s : state) : state * list action :=
  (set_pc (Settled (Rejected e)) s, [Return (Rejected e)]).

(** The destructuring [{ cwd, port, wait, dir }] of the parameter object. *)
Definition destructure (m : gmap string val) : locals :=
  {| cwd := default VUndef (m !! "cwd");
     port := default VUndef (m !! "port");
     wait := default VUndef (m !! "wait");
     dir := default VUndef (m !! "dir") |}.

(** [_generateSsg] up to its first [await], line 64.  Reading [dir.ssr]
    throws when [dir] is [undefined]. *)
Definition _generateSsg (v : locals) : state * list action :=
  let s :=
    {| vars := v; pc := AtPathExists;
       emptyDir_pending := false; copy_pending := false;
       srvProc := None; listener := None; timer := false;
       fetching := 0; writing := 0 |} in
  match dir v with
  | VUndef =>
      throw (TypeError "Cannot read properties of undefined (reading 'ssr')") s
  | d => (s, [Call (pathExists (prop d "ssr"))])
  end.

(** [generateSsg], lines 50-55. *)
Definition generateSsg (p : process) (parObj : gmap string val)
    : state * list action :=
  _generateSsg (destructure (merge p parObj)).

(** The promise of a call that nothing awaits settles: a failure is an
    unhandled rejection.  It is reported by Node.js, not to the module,
    which goes on as long as the process does (up to Node.js 14 the report
    is a warning; from Node.js 15 on it ends the process by default, and
    the run with it). *)
Definition unhandled (r : result unit) : list action :=
  match r with
  | Ok _ => []
  | Failed e => [UnhandledRejection e]
  end.

Definition is_str (v : val) (s : string) : bool :=
  match v with
  | VStr s' => String.eqb s' s
  | _ => false
  end.

(** Whether the listener registered on [srvProc.stdout] is for event [name]. *)
Definition listens (l : option val) (name : string) : bool :=
  match l with
  | Some v => is_str v name
  | None => false
  end.

(** The reaction of the code to one turn of the event loop; [None] when
    the event cannot occur in the state (no such promise is pending, no
    such stream or timer exists).  A chunk on the child's standard output
    runs the callback if it is registered for ['data']; a message on the
    inter-process channel is emitted on [srvProc] itself, where the module
    registers nothing. *)
Definition step (p : process) (s : state) (e : event)
    : option (state * list action) :=
  match e with
  | pathExists_done b =>
      match pc s with
      | AtPathExists =>
          let '(s', acts) := prepare s in
          Some (s', assert b "SSR dist path does not exist, please build SSR first."
                    ++ acts)
      | _ => None
      end
  | ensureDir_done r =>
      match pc s, r with
      | AtEnsureDir, Ok _ => Some (resolvePort p s)
      | AtEnsureDir, Failed err => Some (throw err s)
      | _, _ => None
      end
  | emptyDir_done r =>
      if emptyDir_pending s
      then Some (set_pending false (copy_pending s) s, unhandled r)
      else None
  | copy_done r =>
      if copy_pending s
      then Some (set_pending (emptyDir_pending s) false s, unhandled r)
      else None
  | getPort_done r =>
      match pc s, r with
      | AtGetPort, Ok n => Some (launch (set_port (VNum n) s))
      | AtGetPort, Failed err => Some (throw err s)
      | _, _ => None
      end
  | stdout_data _ =>
      match srvProc s with
      | Some stdout =>
          if has_stdout stdout then
            if listens (listener s) "data" then Some (callback s)
            else Some (s, [])
          else None
      | None => None
      end
  | ipc_message _ =>
      match srvProc s with
      | Some stdout => if is_str stdout "ipc" then Some (s, []) else None
      | None => None
      end
  | timeout =>
      if timer s
      then Some (callback (set_child (srvProc s) (listener s) false s))
      else None
  | get_done r =>
      match fetching s with
      | S n =>
          match r with
          | Ok data =>
              Some (set_io n (S (writing s)) s, [captureIndex_then data; Kill])
          | Failed err => Some (set_io n (writing s) s, [UnhandledRejection err])
          end
      | O => None
      end
  | outputFile_done r =>
      match writing s with
      | S n => Some (set_io (fetching s) n s, unhandled r)
      | O => None
      end
  end.

(** A run: the events of the loop in order, each reacted to in turn. *)
Fixpoint steps (p : process) (s : state) (es : list event)
    : option (state * list action) :=
  match es with
  | [] => Some (s, [])
  | e :: es' =>
      match step p s e with
      | Some (s', acts) =>
          match steps p s' es' with
          | Some (s'', rest) => Some (s'', acts ++ rest)
          | None => None
          end
      | None => None
      end
  end.

Definition run (p : process) (parObj : gmap string val) (es : list event)
    : option (state * list action) :=
  let '(s, acts) := generateSsg p parObj in
  match steps p s es with
  | Some (s', rest) => Some (s', acts ++ rest)
  | None => None
  end.

(** The trace alone. *)
Definition trace (p : process) (parObj : gmap string val) (es : list event)
    : option (list action) :=
  snd <$> run p parObj es.

(** The parameters [_generateSsg] receives from [generateSsg]. *)
Definition params (p : process) (parObj : gmap string val) : locals :=
  destructure (merge p parObj).

(** ** Observations on traces, events and states *)

Definition is_spawn (a : action) : bool :=
  match a with spawn _ _ _ => true | _ => false end.

Definition is_kill (a : action) : bool :=
  match a with Kill => true | _ => false end.

Definition is_get (a : action) : bool :=
  match a with Call (get _) => true | _ => false end.

Definition is_getPort (a : action) : bool :=
  match a with Call (getPort _) => true | _ => false end.

(** The port a [spawn] hands to the child, [None] for other actions. *)
Definition spawned_port (a : action) : option val :=
  match a with spawn _ _ o => Some (env_PORT o) | _ => None end.


Definition fetch_fulfilled (e : event) : bool :=
  match e with get_done (Ok _) => true | _ => false end.

Definition count {A : Type} (f : A -> bool) (l : list A) : nat :=
  length (List.filter f l).

(** Nothing is left that could call back into the module: the function
    has settled, no library promise is pending, no timer is armed and no
    listener is registered. *)
Definition ended (s : state) : bool :=
  match pc s with Settled _ => true | _ => false end
  && negb (emptyDir_pending s) && negb (copy_pending s)
  && negb (timer s) && (fetching s =? 0)%nat && (writing s =? 0)%nat
  && match listener s with None => true | Some _ => false end.

(** ** Inputs used below *)

Definition node : process := {| process_cwd := "/app"; envPort := NaN |}.

Definition node_PORT_8080 : process :=
  {| process_cwd := "/app"; envPort := Fin 8080 |}.

Definition refused : error := LibError "connect ECONNREFUSED 127.0.0.1:3000".

(** [{ port: 3000, wait: 50 }] *)
Definition port3000_wait50 : gmap string val :=
  {[ "port" := VNum (Fin 3000); "wait" := VNum (Fin 50) ]}.

(** [{ port: 3000 }] *)
Definition port3000 : gmap string val :=
  {[ "port" := VNum (Fin 3000) ]}.

(** [{ port: [5000, 5010] }] *)
Definition range_5000_5010 : gmap string val :=
  {[ "port" := VArr [VNum (Fin 5000); VNum (Fin 5010)] ]}.

(** [{ port: 70000 }] *)
Definition port70000 : gmap string val :=
  {[ "port" := VNum (Fin 70000) ]}.

(** [{ port: 3000, wait: 'ipc' }] *)
Definition port3000_ipc : gmap string val :=
  {[ "port" := VNum (Fin 3000); "wait" := VStr "ipc" ]}.

(** [{ port: 3000, dir: { ssr: 'dist/ssr', static: 'dist/ssr/www', ssg: 'out' } }] *)
Definition port3000_out : gmap string val :=
  {[ "port" := VNum (Fin 3000);
     "dir" := VObj {[ "ssr" := VStr "dist/ssr";
                      "static" := VStr "dist/ssr/www";
                      "ssg" := VStr "out" ]} ]}.

(** ** The claims that fail, as propositions about one run *)

(** C1 as stated: a run that spawned the child and has ended has killed it. *)
Definition terminated_on_exit (p : process) (parObj : gmap string val)
    (es : list event) : Prop :=
  forall s tr, run p parObj es = Some (s, tr) ->
    ended s = true -> (0 < count is_spawn tr)%nat -> (0 < count is_kill tr)%nat.

(** C3 as stated: a run in which a fetch or a write failed has rejected the
    promise of [generateSsg]. *)
Definition capture_failure (e : event) : bool :=
  match e with
  | get_done (Failed _) | outputFile_done (Failed _) => true
  | _ => false
  end.

Definition failure_reported (p : process) (parObj : gmap string val)
    (es : list event) : Prop :=
  forall s tr, run p parObj es = Some (s, tr) ->
    (0 < count capture_failure es)%nat -> exists e, pc s = Settled (Rejected e).

(** C6 as stated: a numeric environment port is what the resolver uses,
    whatever [port] was configured. *)
Definition env_port_wins (p : process) (port : val) : Prop :=
  forall n, envPort p = Fin n -> resolve p port = Use (VNum (Fin n)).


(** ** Invariants of a run *)

(** Once a callback can run or has run (the timer is armed, a listener is
    registered, a fetch or a write is in flight), [_generateSsg] has
    returned and its promise is fulfilled. *)
Definition returned_when_armed (s : state) : Prop :=
  (timer s = true \/ listener s <> None
   \/ fetching s <> 0%nat \/ writing s <> 0%nat) ->
  pc s = Settled Fulfilled.

(** The ports handed to the children spawned in a trace, in order. *)
Definition spawned_ports (tr : list action) : list val :=
  omap spawned_port tr.

(** While [_generateSsg] has not reached port resolution, [port] is the
    parameter it was given; it never waits for [getPort]. *)
Definition port_untouched (port0 : val) (s : state) : Prop :=
  match pc s with
  | AtPathExists | AtEnsureDir => port (vars s) = port0
  | AtGetPort => False
  | Settled _ => True
  end.



(** ** Further observations *)

Definition is_write (a : action) : bool :=
  match a with Call (outputFile _ _) => true | _ => false end.

(** Every [kill] in the trace comes right after a call of [outputFile];
    [written] tells whether the action before the trace was such a call. *)
Fixpoint kill_follows_write (written : bool) (tr : list action) : bool :=
  match tr with
  | [] => true
  | a :: tr' =>
      (if is_kill a then written else true)
      && kill_follows_write (is_write a) tr'
  end.

(** What [_generateSsg] does for its caller, in program order: the spawn
    of the child, the registration of the readiness callback and the
    settling of the promise. *)
Inductive milestone :=
| Spawned
| Registered
| Returned (r : outcome).

Definition milestone_of (a : action) : option milestone :=
  match a with
  | spawn _ _ _ => Some Spawned
  | On _ | SetTimeout _ => Some Registered
  | Return r => Some (Returned r)
  | _ => None
  end.

(** The turn in which [ensureDir] succeeds. *)
Definition ensured (e : event) : bool :=
  match e with ensureDir_done (Ok _) => true | _ => false end.

(** The registration of a readiness callback: [.on] or [setTimeout]. *)
Definition is_watch (a : action) : bool :=
  match a with On _ | SetTimeout _ => true | _ => false end.

Definition is_assertion (a : action) : bool :=
  match a with AssertionFailed _ => true | _ => false end.

(** The port in the URL of a fetch. *)
Definition fetched_port (a : action) : option val :=
  match a with Call (get v) => Some v | _ => None end.

(** The path and content of a write of the document. *)
Definition written (a : action) : option (string * string) :=
  match a with Call (outputFile path data) => Some (path, data) | _ => None end.

(** The range a free-port search is called with. *)
Definition searched (a : action) : option (option (val * val)) :=
  match a with Call (getPort range) => Some range | _ => None end.


(** The body of a fetch that fulfils. *)
Definition body (e : event) : option string :=
  match e with get_done (Ok data) => Some data | _ => None end.

(** The two readiness signals the module reacts to. *)
Definition is_ready (e : event) : bool :=
  match e with stdout_data _ | timeout => true | _ => false end.

(** The failure of one of the two awaited library calls after line 64. *)
Definition fatal (err : error) (e : event) : Prop :=
  e = ensureDir_done (Failed err) \/ e = getPort_done (Failed err).

(** The same turn with [pathExists] answering [true]. *)
Definition calm (e : event) : event :=
  match e with
  | pathExists_done _ => pathExists_done true
  | _ => e
  end.

(** The [stdio[1]] option [spawnSrv] is called with, lines 93 and 105. *)
Definition stdout_for (wait : val) : val :=
  match wait with
  | VStr w => member stdout_of w
  | _ => VStr "ignore"
  end.

(** A [spawn] of [node ssrDir] in [cwd] with standard input and standard
    error ignored and [stdout] as the option for standard output. *)
Definition child_of (cwd ssrDir stdout : val) (a : action) : Prop :=
  match a with
  | spawn command args o =>
      command = "node" /\ args = [ssrDir] /\ opt_cwd o = cwd
      /\ stdio o = [VStr "ignore"; stdout; VStr "ignore"]
  | _ => True
  end.

(** No child exists before [_generateSsg] has settled, and a timer is armed
    only for a child. *)
Definition child_inv (s : state) : Prop :=
  match pc s with Settled _ => True | _ => srvProc s = None end
  /\ (timer s = true -> srvProc s <> None).

Definition children (s : state) : nat :=
  match srvProc s with Some _ => 1 | None => 0 end.

(** The error of a library call whose promise nothing awaits. *)
Definition dropped_error (e : event) : option error :=
  match e with
  | emptyDir_done (Failed err) | copy_done (Failed err)
  | get_done (Failed err) | outputFile_done (Failed err) => Some err
  | _ => None
  end.

(** The error of an unhandled rejection. *)
Definition unhandled_error (a : action) : option error :=
  match a with UnhandledRejection err => Some err | _ => None end.

Definition unasserted (a : action) : bool := negb (is_assertion a).

(** Until the port has been resolved, [port] is the parameter. *)
Definition port_pending (port0 : val) (s : state) : Prop :=
  match pc s with
  | AtPathExists | AtEnsureDir => port (vars s) = port0
  | _ => True
  end.

(** The port is one a free-port search of the run answered with. *)
Definition found_in (es : list event) (v : val) : Prop :=
  exists n, v = VNum n /\ In (getPort_done (Ok n)) es.



(** The actions of a capture: the fetch, the write and the [kill]. *)
Definition is_capture (a : action) : bool :=
  match a with
  | Call (get _) | Call (outputFile _ _) | Kill => true
  | _ => false
  end.

Definition is_fulfilment (a : action) : bool :=
  match a with Return Fulfilled => true | _ => false end.

(** Every action of a capture in the trace comes after the fulfilment of
    the promise; [seen] tells whether the fulfilment has already occurred. *)
Fixpoint after_fulfilment (seen : bool) (tr : list action) : bool :=
  match tr with
  | [] => true
  | a :: tr' =>
      (if is_capture a then seen else true)
      && after_fulfilment (seen || is_fulfilment a) tr'
  end.

(** The child's port, once it exists, is the value of [port], which no
    later turn assigns to; every fetch so far went to it. *)
Definition port_agreed (s : state) (tr : list action) : Prop :=
  match srvProc s with
  | None =>
      spawned_ports tr = [] /\ omap fetched_port tr = []
  | Some _ =>
      spawned_ports tr = [port (vars s)]
      /\ Forall (eq (port (vars s))) (omap fetched_port tr)
  end.

(** The milestones a state has behind it. *)
Definition reached (s : state) (ms : list milestone) : Prop :=
  match pc s with
  | Settled Fulfilled => ms = [Spawned; Registered; Returned Fulfilled]
  | Settled (Rejected e) =>
      ms = [Returned (Rejected e)] \/ ms = [Spawned; Returned (Rejected e)]
  | _ => ms = []
  end.

(** With [b] telling whether [ensureDir] has succeeded and [l] the ranges
    the free-port search was called with so far: the search is called once,
    in the turn in which [ensureDir] succeeds. *)
Definition searched_once (port0 : val) (r : option (val * val)) (s : state)
    (b : bool) (l : list (option (val * val))) : Prop :=
  l = (if b then [r] else [])
  /\ match pc s with
     | AtPathExists | AtEnsureDir => port (vars s) = port0 /\ b = false
     | AtGetPort => b = true
     | Settled _ => True
     end.

(** * Properties *)

(** ** Reasoning about runs *)

Lemma count_app {A : Type} (f : A -> bool) (l1 l2 : list A) :
  count f (l1 ++ l2) = (count f l1 + count f l2)%nat.
Proof. unfold count. by rewrite List.filter_app, length_app. Qed.

Lemma count_snoc {A : Type} (f : A -> bool) (l : list A) (x : A) :
  count f (l ++ [x]) = (count f l + if f x then 1 else 0)%nat.
Proof. rewrite count_app. unfold count. simpl. by destruct (f x). Qed.

(** An invariant of the state, the trace so far and the events so far that
    every turn preserves holds after any run. *)
Lemma steps_invariant (p : process)
    (I : state -> list action -> list event -> Prop) :
  (forall s tr es e s' acts,
      I s tr es -> step p s e = Some (s', acts) ->
      I s' (tr ++ acts) (es ++ [e])) ->
  forall es s0 tr0 es0 s tr,
    I s0 tr0 es0 -> steps p s0 es = Some (s, tr) ->
    I s (tr0 ++ tr) (es0 ++ es).
Proof.
  intros Hstep. induction es as [|e es IH]; intros s0 tr0 es0 s tr HI Hrun.
  - simpl in Hrun. injection Hrun as <- <-. by rewrite !app_nil_r.
  - simpl in Hrun.
    destruct (step p s0 e) as [[s1 acts]|] eqn:He; [|discriminate].
    destruct (steps p s1 es) as [[s2 rest]|] eqn:Hes; [|discriminate].
    injection Hrun as <- <-.
    specialize (IH s1 (tr0 ++ acts) (es0 ++ [e]) s2 rest
                  (Hstep _ _ _ _ _ _ HI He) Hes).
    by rewrite <- !app_assoc in IH.
Qed.

Lemma run_invariant (p : process) (parObj : gmap string val)
    (I : state -> list action -> list event -> Prop) :
  I (fst (generateSsg p parObj)) (snd (generateSsg p parObj)) [] ->
  (forall s tr es e s' acts,
      I s tr es -> step p s e = Some (s', acts) ->
      I s' (tr ++ acts) (es ++ [e])) ->
  forall es s tr, run p parObj es = Some (s, tr) -> I s tr es.
Proof.
  intros Hinit Hstep es s tr. unfold run.
  destruct (generateSsg p parObj) as [s0 tr0]. simpl in Hinit.
  destruct (steps p s0 es) as [[s1 rest]|] eqn:Hes; [|discriminate].
  intros [= <- <-].
  apply (steps_invariant p I Hstep es s0 tr0 [] s1 rest Hinit Hes).
Qed.

Lemma count_assert (f : action -> bool) (b : bool) (msg : string) :
  f (AssertionFailed msg) = false -> count f (assert b msg) = 0%nat.
Proof. intros Hf. unfold assert, count. destruct b; simpl; by rewrite ?Hf. Qed.

Lemma count_unhandled (f : action -> bool) (r : result unit) :
  (forall e, f (UnhandledRejection e) = false) -> count f (unhandled r) = 0%nat.
Proof. intros Hf. unfold count. destruct r; simpl; by rewrite ?Hf. Qed.

(** Evaluates the run on the left of a goal [exists s tr, run .. = Some (s, tr) /\ ..]
    and leaves the remaining conjuncts at the computed state and trace. *)
Ltac evaluate_run :=
  match goal with
  | |- context [run ?p ?o ?es] =>
      let r := fresh "r" in
      set (r := run p o es); vm_compute in r; subst r;
      eexists _, _; split; [reflexivity|]
  end.

(** Splits a turn [step p s e = Some (s', acts)] into the branches of the
    code that can have produced it. *)
Ltac step_cases H :=
  unfold step, resolvePort, launch, throw, callback, prepare, spawnSrv in H;
  repeat case_match; simplify_eq.

Ltac count_actions :=
  rewrite ?count_app, ?count_assert, ?count_unhandled by done;
  try reflexivity.

(** A turn invokes [kill] exactly when it is the fulfilment of a fetch. *)
Lemma step_kills (p : process) (s s' : state) (e : event) (acts : list action) :
  step p s e = Some (s', acts) ->
  count is_kill acts = if fetch_fulfilled e then 1%nat else 0%nat.
Proof.
  intros H. step_cases H; count_actions.
Qed.

Lemma vars_generateSsg (p : process) (parObj : gmap string val) :
  vars (fst (generateSsg p parObj)) = params p parObj.
Proof.
  unfold generateSsg, _generateSsg, throw, params.
  by destruct (dir _).
Qed.

Lemma generateSsg_quiet (p : process) (parObj : gmap string val)
    (f : action -> bool) :
  (forall v, f (Call (pathExists v)) = false) ->
  (forall r, f (Return r) = false) ->
  count f (snd (generateSsg p parObj)) = 0%nat.
Proof.
  intros H1 H2. unfold generateSsg, _generateSsg, throw, count.
  destruct (dir _); simpl; by rewrite ?H1, ?H2.
Qed.

Lemma run_kills (p : process) (parObj : gmap string val) (es : list event)
    (s : state) (tr : list action) :
  run p parObj es = Some (s, tr) ->
  count is_kill tr = count fetch_fulfilled es.
Proof.
  revert es s tr.
  apply (run_invariant p parObj
           (fun _ tr es => count is_kill tr = count fetch_fulfilled es)).
  - by apply generateSsg_quiet.
  - intros s tr es e s' acts IH Hstep.
    rewrite count_app, count_snoc, IH. f_equal. by eapply step_kills.
Qed.

Lemma kill_follows_write_none (written : bool) (tr : list action) :
  count is_kill tr = 0%nat -> kill_follows_write written tr = true.
Proof.
  unfold count. revert written.
  induction tr as [|a tr IH]; intros written; simpl; [done|].
  destruct (is_kill a); simpl; [done|]. apply IH.
Qed.

Lemma kill_follows_write_app (written : bool) (tr acts : list action) :
  (forall b, kill_follows_write b acts = true) ->
  kill_follows_write written (tr ++ acts) = kill_follows_write written tr.
Proof.
  intros Hacts. revert written.
  induction tr as [|a tr IH]; intros written; simpl.
  - apply Hacts.
  - by rewrite IH.
Qed.

(** In the turn of a fulfilled fetch the write of the document is started
    and [kill] invoked next; no other turn invokes [kill]. *)
Lemma step_kill_follows_write (p : process) (s s' : state) (e : event)
    (acts : list action) (b : bool) :
  step p s e = Some (s', acts) -> kill_follows_write b acts = true.
Proof.
  intros H. pose proof (step_kills _ _ _ _ _ H) as Hk.
  destruct (fetch_fulfilled e) eqn:He.
  - destruct e as [| | | | | | | |[data|]|]; try discriminate.
    simpl in H. destruct (fetching s); [discriminate|].
    by injection H as <- <-.
  - by apply kill_follows_write_none.
Qed.

Lemma run_kill_follows_write (p : process) (parObj : gmap string val)
    (es : list event) (s : state) (tr : list action) :
  run p parObj es = Some (s, tr) -> kill_follows_write false tr = true.
Proof.
  revert es s tr.
  apply (run_invariant p parObj
           (fun _ tr _ => kill_follows_write false tr = true)).
  - apply kill_follows_write_none. by apply generateSsg_quiet.
  - intros s tr es e s' acts IH Hstep.
    rewrite kill_follows_write_app; [done|].
    intros b. by eapply step_kill_follows_write.
Qed.

(** ** C1: termination of the child *)

(** C1, as stated, fails.  With [{ port: 3000, wait: 50 }] the output is
    prepared, the child is spawned, the timer fires and the fetch of the
    root document is refused: the run ends there, nothing is pending, and
    [kill] was never invoked. *)
Lemma C1_child_left_running :
  ~ terminated_on_exit node port3000_wait50
      [pathExists_done true; ensureDir_done (Ok ()); emptyDir_done (Ok ());
       copy_done (Ok ()); timeout; get_done (Failed refused)].
Proof.
  unfold terminated_on_exit. intros H.
  set (r := run _ _ _) in H. vm_compute in r. subst r.
  specialize (H _ _ eq_refl). vm_compute in H.
  specialize (H eq_refl (le_n 1)). inversion H.
Qed.

(** C1, amended: in every run [kill] is invoked on the child's handle once
    for each capture fetch that fulfils, right after the write of the
    document is started, and at no other moment; a fetch that rejects
    invokes no [kill]. *)
Theorem C1_kill_once_per_fulfilled_fetch
    (p : process) (parObj : gmap string val) (es : list event)
    (s : state) (tr : list action) :
  run p parObj es = Some (s, tr) ->
  count is_kill tr = count fetch_fulfilled es
  /\ kill_follows_write false tr = true.
Proof.
  intros Hrun. split.
  - by eapply run_kills.
  - by eapply run_kill_follows_write.
Qed.

(** C1, amended, on a run whose fetch fulfils. *)
Lemma C1_kill_once_per_fulfilled_fetch_witness :
  exists s tr,
    run node port3000_wait50
      [pathExists_done true; ensureDir_done (Ok ()); timeout;
       get_done (Ok "<html></html>")] = Some (s, tr)
    /\ count is_kill tr = 1%nat
    /\ kill_follows_write false tr = true.
Proof.
  destruct (run _ _ _) as [[s tr]|] eqn:H;
    [|vm_compute in H; discriminate H].
  exists s, tr. split; [reflexivity|].
  destruct (C1_kill_once_per_fulfilled_fetch _ _ _ _ _ H) as [-> Horder].
  by split.
Defined.

(** ** C2: where the captured document is written *)

(** C2: the claim asks for [index.html] inside the configured [dir.ssg].
    With [dir.ssg = 'out'] the output directory is prepared at ['out'], yet
    the document is written to the fixed path ['dist/ssg/index.html']. *)
Theorem C2_document_written_to_fixed_path :
  trace node port3000_out
    [pathExists_done true; ensureDir_done (Ok ()); stdout_data "ready";
     get_done (Ok "<html></html>")]
  = Some
      [Call (pathExists (VStr "dist/ssr"));
       Call (ensureDir (VStr "out"));
       Call (emptyDir (VStr "out"));
       Call (copy (VStr "dist/ssr/www") (VStr "out"));
       spawn "node" [VStr "dist/ssr"]
         {| opt_cwd := VStr "/app";
            stdio := [VStr "ignore"; VStr "pipe"; VStr "ignore"];
            env_PORT := VNum (Fin 3000) |};
       On (VStr "data");
       Return Fulfilled;
       Call (get (VNum (Fin 3000)));
       Call (outputFile "dist/ssg/index.html" "<html></html>");
       Kill].
Proof. vm_compute. reflexivity. Qed.

(** ** C4 and C5: the checks made with [console.assert] *)

(** C4: the claim asks for a failure without spawn or output mutation when
    [dir.ssr] does not exist.  With [{ port: 3000 }] and [pathExists]
    answering [false], the message is printed and the run goes on: the
    output directory is prepared, the child is spawned and the promise is
    fulfilled. *)
Theorem C4_missing_ssr_dir_does_not_abort :
  trace node port3000 [pathExists_done false; ensureDir_done (Ok ())]
  = Some
      [Call (pathExists (VStr "dist/ssr"));
       AssertionFailed "SSR dist path does not exist, please build SSR first.";
       Call (ensureDir (VStr "dist/ssg"));
       Call (emptyDir (VStr "dist/ssg"));
       Call (copy (VStr "dist/ssr/www") (VStr "dist/ssg"));
       spawn "node" [VStr "dist/ssr"]
         {| opt_cwd := VStr "/app";
            stdio := [VStr "ignore"; VStr "pipe"; VStr "ignore"];
            env_PORT := VNum (Fin 3000) |};
       On (VStr "data");
       Return Fulfilled].
Proof. vm_compute. reflexivity. Qed.

(** C5: the claim asks for a port error before any spawn when the port is
    outside [1, 65535].  With [{ port: 70000 }], and likewise with no
    [port] and [PORT=70000] in the environment, the message is printed and
    the child is spawned on that port; the promise is fulfilled. *)
Theorem C5_port_out_of_range_does_not_abort :
  let after_check :=
    [AssertionFailed "No available ports";
     spawn "node" [VStr "dist/ssr"]
       {| opt_cwd := VStr "/app";
          stdio := [VStr "ignore"; VStr "pipe"; VStr "ignore"];
          env_PORT := VNum (Fin 70000) |};
     On (VStr "data");
     Return Fulfilled] in
  let before_check :=
    [Call (pathExists (VStr "dist/ssr"));
     Call (ensureDir (VStr "dist/ssg"));
     Call (emptyDir (VStr "dist/ssg"));
     Call (copy (VStr "dist/ssr/www") (VStr "dist/ssg"))] in
  trace node port70000 [pathExists_done true; ensureDir_done (Ok ())]
  = Some (before_check ++ after_check)
  /\ trace {| process_cwd := "/app"; envPort := Fin 70000 |} ∅
       [pathExists_done true; ensureDir_done (Ok ())]
     = Some (before_check ++ after_check).
Proof. split; vm_compute; reflexivity. Qed.

(** ** C7: output preparation and spawn *)

(** C7: the claim asks for the emptying and the copy to have finished, one
    after the other, before the spawn.  [emptyDir] and [copy] are called in
    the same turn as [ensureDir], before it has completed, and only
    [ensureDir] is awaited: with [{ port: 3000 }], once [ensureDir]
    completes the child is spawned while both are still pending. *)
Theorem C7_spawn_before_preparation_completes :
  exists s tr,
    run node port3000 [pathExists_done true; ensureDir_done (Ok ())]
    = Some (s, tr)
    /\ tr = [Call (pathExists (VStr "dist/ssr"));
             Call (ensureDir (VStr "dist/ssg"));
             Call (emptyDir (VStr "dist/ssg"));
             Call (copy (VStr "dist/ssr/www") (VStr "dist/ssg"));
             spawn "node" [VStr "dist/ssr"]
               {| opt_cwd := VStr "/app";
                  stdio := [VStr "ignore"; VStr "pipe"; VStr "ignore"];
                  env_PORT := VNum (Fin 3000) |};
             On (VStr "data");
             Return Fulfilled]
    /\ emptyDir_pending s = true
    /\ copy_pending s = true.
Proof. evaluate_run. repeat split. Qed.

(** ** C9: the [ipc] strategy *)

(** C9: the claim asks for the watcher to be registered without fault
    under [wait = 'ipc'].  The child is spawned with [stdio[1] = 'ipc'], so
    [srvProc.stdout] is [null] and [srvProc.stdout.on] throws: the promise
    is rejected with a [TypeError], no listener is registered, and a message
    from the child starts no capture. *)
Theorem C9_ipc_registration_throws :
  exists s tr,
    run node port3000_ipc
      [pathExists_done true; ensureDir_done (Ok ()); ipc_message (VStr "ready")]
    = Some (s, tr)
    /\ tr = [Call (pathExists (VStr "dist/ssr"));
             Call (ensureDir (VStr "dist/ssg"));
             Call (emptyDir (VStr "dist/ssg"));
             Call (copy (VStr "dist/ssr/www") (VStr "dist/ssg"));
             spawn "node" [VStr "dist/ssr"]
               {| opt_cwd := VStr "/app";
                  stdio := [VStr "ignore"; VStr "ipc"; VStr "ignore"];
                  env_PORT := VNum (Fin 3000) |};
             Return (Rejected
                       (TypeError "Cannot read properties of null (reading 'on')"))]
    /\ listener s = None
    /\ fetching s = 0%nat.
Proof. evaluate_run. repeat split. Qed.

(** ** C3: what becomes of a capture failure *)

Lemma step_returned_when_armed (p : process) (s s' : state) (e : event)
    (acts : list action) :
  returned_when_armed s -> step p s e = Some (s', acts) ->
  returned_when_armed s'.
Proof.
  unfold returned_when_armed. destruct s as [v c ep cp ch l t f w].
  intros I H. simpl in *.
  step_cases H; simpl in *; intros; try reflexivity;
    destruct l; simpl in *; intuition (try congruence; try lia).
Qed.

Lemma run_returned_when_armed (p : process) (parObj : gmap string val)
    (es : list event) (s : state) (tr : list action) :
  run p parObj es = Some (s, tr) -> returned_when_armed s.
Proof.
  revert es s tr.
  apply (run_invariant p parObj (fun s _ _ => returned_when_armed s)).
  - unfold generateSsg, _generateSsg, throw, returned_when_armed.
    destruct (dir _); simpl; intuition (congruence || lia).
  - intros. by eapply step_returned_when_armed.
Qed.

(** C3, as stated, fails.  With [{ port: 3000, wait: 50 }] a refused fetch,
    and likewise a failed write of the document, leaves the promise of
    [generateSsg] fulfilled. *)
Lemma C3_capture_failure_not_reported :
  ~ failure_reported node port3000_wait50
      [pathExists_done true; ensureDir_done (Ok ()); timeout;
       get_done (Failed refused)]
  /\ ~ failure_reported node port3000_wait50
         [pathExists_done true; ensureDir_done (Ok ()); timeout;
          get_done (Ok "<html></html>");
          outputFile_done (Failed (LibError "EACCES: permission denied"))].
Proof.
  unfold failure_reported. split; intros H.
  all: set (r := run _ _ _) in H; vm_compute in r; subst r.
  all: specialize (H _ _ eq_refl); vm_compute in H.
  all: destruct (H (le_n 1)) as [e He]; discriminate He.
Qed.

(** C3, amended: when a capture fetch or the write of the document fails,
    the promise returned by [generateSsg] has already been fulfilled and
    stays so; the failure is raised as an unhandled promise rejection and is
    not reported to the caller. *)
Theorem C3_capture_failure_is_unhandled
    (p : process) (parObj : gmap string val) (es : list event)
    (s s' : state) (tr acts : list action) (err : error) :
  run p parObj es = Some (s, tr) ->
  step p s (get_done (Failed err)) = Some (s', acts)
  \/ step p s (outputFile_done (Failed err)) = Some (s', acts) ->
  pc s = Settled Fulfilled
  /\ pc s' = Settled Fulfilled
  /\ acts = [UnhandledRejection err].
Proof.
  intros Hrun Hstep.
  pose proof (run_returned_when_armed _ _ _ _ _ Hrun) as I.
  unfold returned_when_armed in I. simpl in Hstep.
  destruct Hstep as [H|H].
  - destruct (fetching s) as [|n] eqn:Hf; [discriminate|].
    injection H as <- <-. simpl. rewrite I; auto.
  - destruct (writing s) as [|n] eqn:Hw; [discriminate|].
    injection H as <- <-. simpl. rewrite I; auto.
Qed.

(** C3, amended, on a run whose fetch is refused. *)
Lemma C3_capture_failure_is_unhandled_witness :
  exists s tr s' acts,
    run node port3000_wait50
      [pathExists_done true; ensureDir_done (Ok ()); timeout] = Some (s, tr)
    /\ step node s (get_done (Failed refused)) = Some (s', acts)
    /\ pc s' = Settled Fulfilled
    /\ acts = [UnhandledRejection refused].
Proof.
  destruct (run _ _ _) as [[s tr]|] eqn:H;
    [|vm_compute in H; discriminate H].
  destruct (step node s (get_done (Failed refused))) as [[s' acts]|] eqn:H2.
  - exists s, tr, s', acts.
    destruct (C3_capture_failure_is_unhandled _ _ _ _ _ _ _ _ H (or_introl H2))
      as (_ & Hpc & Hacts).
    auto.
  - vm_compute in H. injection H as <- <-. vm_compute in H2. discriminate H2.
Defined.

(** ** C6: the environment port and the configured port *)

Lemma spawned_ports_assert (b : bool) (msg : string) :
  omap spawned_port (assert b msg) = [].
Proof. by destruct b. Qed.

Lemma spawned_ports_unhandled (r : result unit) :
  omap spawned_port (unhandled r) = [].
Proof. by destruct r. Qed.

Lemma step_resolved (p : process) (port0 v : val) (s s' : state) (e : event)
    (acts : list action) :
  resolve p port0 = Use v ->
  port_untouched port0 s ->
  step p s e = Some (s', acts) ->
  port_untouched port0 s'
  /\ Forall (eq v) (spawned_ports acts)
  /\ count is_getPort acts = 0%nat.
Proof.
  unfold port_untouched, spawned_ports.
  destruct s as [[c0 p0 w0 d0] c ep cp ch l t f w].
  intros Hres I H. simpl in *.
  step_cases H; simpl in *; try done;
    rewrite ?omap_app, ?count_app, ?count_assert, ?count_unhandled,
      ?spawned_ports_assert, ?spawned_ports_unhandled by done;
    simpl; split_and?; try done.
  all: try (exfalso; congruence).
  all: repeat constructor; congruence.
Qed.

(** When the resolver has a value at hand, every child of the run is
    spawned with it and the free-port search is never called. *)
Lemma run_uses_resolved_port (p : process) (parObj : gmap string val)
    (v : val) (es : list event) (s : state) (tr : list action) :
  resolve p (port (params p parObj)) = Use v ->
  run p parObj es = Some (s, tr) ->
  Forall (eq v) (spawned_ports tr) /\ count is_getPort tr = 0%nat.
Proof.
  intros Hres Hrun.
  cut (port_untouched (port (params p parObj)) s
       /\ Forall (eq v) (spawned_ports tr) /\ count is_getPort tr = 0%nat);
    [tauto|].
  revert es s tr Hrun.
  apply (run_invariant p parObj
           (fun s tr _ =>
              port_untouched (port (params p parObj)) s
              /\ Forall (eq v) (spawned_ports tr)
              /\ count is_getPort tr = 0%nat)).
  - unfold params, generateSsg, _generateSsg, throw, port_untouched.
    destruct (dir _); simpl; split_and?; done || constructor.
  - intros s tr es' e s' acts (I & Hp & Hg) Hstep.
    destruct (step_resolved _ _ _ _ _ _ _ Hres I Hstep) as (I' & Hp' & Hg').
    unfold spawned_ports in *.
    rewrite omap_app, count_app, Hg, Hg', Forall_app. auto.
Qed.


(** C6, as stated, fails.  With [PORT=8080] in the environment and
    [port: 3000] configured, the resolver keeps 3000. *)
Lemma C6_configured_port_beats_environment :
  ~ env_port_wins node_PORT_8080 (VNum (Fin 3000)).
Proof.
  unfold env_port_wins. intros H.
  specialize (H 8080 eq_refl). vm_compute in H. discriminate H.
Qed.

(** C6, amended: whenever the environment port is a nonzero number, the
    resolver uses it in preference to an absent [port] and to an explicit
    [[low, high]] range, without calling the free-port search, and the child
    is spawned with it; an explicitly configured nonzero integer [port] is
    used as configured, whatever the environment holds. *)
Theorem C6_environment_port_precedence
    (p : process) (n : Z) (parObj : gmap string val) (es : list event)
    (s : state) (tr : list action) :
  envPort p = Fin n -> n <> 0 ->
  run p parObj es = Some (s, tr) ->
  let configured := port (params p parObj) in
  (configured = VUndef \/ (exists lo hi, configured = VArr [lo; hi]) ->
   resolve p configured = Use (VNum (Fin n))
   /\ Forall (eq (VNum (Fin n))) (spawned_ports tr)
   /\ count is_getPort tr = 0%nat)
  /\ (forall k, k <> 0 -> configured = VNum (Fin k) ->
      resolve p configured = Use (VNum (Fin k))
      /\ Forall (eq (VNum (Fin k))) (spawned_ports tr)).
Proof.
  intros Henv Hn Hrun configured. split.
  - intros Hc.
    assert (Hres : resolve p configured = Use (VNum (Fin n))).
    { unfold resolve. rewrite Henv.
      destruct Hc as [->|(lo & hi & ->)]; simpl;
        destruct (Z.eqb_spec n 0); done. }
    split; [exact Hres|].
    exact (run_uses_resolved_port _ _ _ _ _ _ Hres Hrun).
  - intros k Hk Hc.
    assert (Hres : resolve p configured = Use (VNum (Fin k))).
    { unfold resolve. rewrite Hc. simpl. destruct (Z.eqb_spec k 0); done. }
    split; [exact Hres|].
    exact (proj1 (run_uses_resolved_port _ _ _ _ _ _ Hres Hrun)).
Qed.

(** C6, amended, with [PORT=8080] and [port: [5000, 5010]]. *)
Lemma C6_environment_port_precedence_witness :
  exists s tr,
    run node_PORT_8080 range_5000_5010
      [pathExists_done true; ensureDir_done (Ok ())] = Some (s, tr)
    /\ Forall (eq (VNum (Fin 8080))) (spawned_ports tr)
    /\ count is_getPort tr = 0%nat.
Proof.
  destruct (run _ _ _) as [[s tr]|] eqn:H;
    [|vm_compute in H; discriminate H].
  exists s, tr. split; [reflexivity|].
  assert (H8080 : (8080 : Z) <> 0) by lia.
  destruct (C6_environment_port_precedence node_PORT_8080 8080 _ _ _ _
              eq_refl H8080 H) as [Hrange _].
  apply Hrange. right. exists (VNum (Fin 5000)), (VNum (Fin 5010)).
  vm_compute. reflexivity.
Defined.

(** ** C8: how often the readiness callback runs *)

(** Every [kill] follows a fetch that was issued before. *)
Lemma step_kill_after_get (p : process) (s s' : state) (e : event)
    (acts : list action) :
  step p s e = Some (s', acts) ->
  (count is_kill acts + fetching s' <= fetching s + count is_get acts)%nat.
Proof.
  destruct s as [v c ep cp ch l t f w]. intros H. simpl in *.
  step_cases H; simpl in *; simplify_eq; count_actions;
    unfold captureIndex, captureIndex_then, count; simpl; lia.
Qed.

Lemma step_wait (p : process) (s s' : state) (e : event) (acts : list action) :
  step p s e = Some (s', acts) -> wait (vars s') = wait (vars s).
Proof.
  destruct s as [v c ep cp ch l t f w]. intros H.
  step_cases H; reflexivity.
Qed.





Lemma run_kill_after_get (p : process) (parObj : gmap string val)
    (es : list event) (s : state) (tr : list action) :
  run p parObj es = Some (s, tr) ->
  (count is_kill tr + fetching s <= count is_get tr)%nat.
Proof.
  revert es s tr.
  apply (run_invariant p parObj
           (fun s tr _ => (count is_kill tr + fetching s <= count is_get tr)%nat)).
  - rewrite !generateSsg_quiet by done.
    unfold generateSsg, _generateSsg, throw. by destruct (dir _).
  - intros s tr es e s' acts IH Hstep. rewrite !count_app.
    pose proof (step_kill_after_get _ _ _ _ _ Hstep). lia.
Qed.






(** ** C10: the merge of the caller's parameters *)

Lemma merge_supplied (p : process) (parObj : gmap string val) (k : string)
    (v : val) :
  merge p (<[k := v]> parObj) !! k = Some v.
Proof.
  unfold merge. apply lookup_union_Some_l. apply lookup_insert_eq.
Qed.

Lemma merge_lookup (p : process) (parObj : gmap string val) (k : string) :
  merge p parObj !! k
  = match parObj !! k with
    | Some v => Some v
    | None => defaultParam p !! k
    end.
Proof. unfold merge. rewrite lookup_union. by destruct (parObj !! k), (defaultParam p !! k). Qed.

Lemma generateSsg_merged (p : process) (parObj : gmap string val) :
  generateSsg p parObj
  = _generateSsg
      {| cwd := default (VStr (process_cwd p)) (parObj !! "cwd");
         port := default VUndef (parObj !! "port");
         wait := default (VStr "stdout") (parObj !! "wait");
         dir := default (VObj defaultDir) (parObj !! "dir") |}.
Proof.
  unfold generateSsg, destructure. rewrite !merge_lookup.
  by destruct (parObj !! "cwd"), (parObj !! "port"), (parObj !! "wait"),
    (parObj !! "dir").
Qed.

(** C10: the merge is a top-level spread.  A [dir] supplied by the caller is
    the [dir] that [_generateSsg] receives, whatever else is supplied:
    reading a key of it yields what the caller's object holds and
    [undefined] for a key it omits, never the default.  With
    [{ dir: { ssg: 'out' } }], [dir.ssr] and [dir.static] are [undefined],
    while the top-level defaults of [wait] and [cwd] still apply.
    [generateSsg] calls [_generateSsg] with the caller's value for each
    top-level key the caller's object has and the default for the others;
    with a supplied [dir] object it asks [pathExists] about that object's
    [ssr], [undefined] when omitted, and with [{ dir: { ssg: 'out' } }] the
    run prepares ['out'] from the source [undefined]. *)
Theorem C10_dir_replaced_wholesale
    (p : process) (parObj : gmap string val) :
  (forall d, merge p (<["dir" := d]> parObj) !! "dir" = Some d)
  /\ (forall d, dir (params p (<["dir" := d]> parObj)) = d)
  /\ (forall (o : gmap string val) k,
        prop (dir (params p (<["dir" := VObj o]> parObj))) k
        = default VUndef (o !! k))
  /\ (let only_ssg : gmap string val :=
        {[ "dir" := VObj {[ "ssg" := VStr "out" ]} ]} in
      let received := params p only_ssg in
      prop (dir received) "ssr" = VUndef
      /\ prop (dir received) "static" = VUndef
      /\ prop (dir received) "ssg" = VStr "out"
      /\ wait received = VStr "stdout"
      /\ cwd received = VStr (process_cwd p))
  /\ generateSsg p parObj
     = _generateSsg
         {| cwd := default (VStr (process_cwd p)) (parObj !! "cwd");
            port := default VUndef (parObj !! "port");
            wait := default (VStr "stdout") (parObj !! "wait");
            dir := default (VObj defaultDir) (parObj !! "dir") |}
  /\ (forall o : gmap string val,
        snd (generateSsg p (<["dir" := VObj o]> parObj))
        = [Call (pathExists (default VUndef (o !! "ssr")))])
  /\ trace p {[ "dir" := VObj {[ "ssg" := VStr "out" ]} ]}
       [pathExists_done true]
     = Some [Call (pathExists VUndef);
             Call (ensureDir (VStr "out"));
             Call (emptyDir (VStr "out"));
             Call (copy VUndef (VStr "out"))].
Proof.
  assert (Hdir : forall d, dir (params p (<["dir" := d]> parObj)) = d).
  { intros d. unfold params, destructure. simpl. by rewrite merge_supplied. }
  split; [|split; [|split; [|split; [|split; [|split]]]]].
  - intros d. apply merge_supplied.
  - exact Hdir.
  - intros o k. by rewrite Hdir.
  - intros only_ssg received. subst received. unfold params, destructure.
    destruct p as [dcwd penv]. vm_compute. repeat split.
  - apply generateSsg_merged.
  - intros o. rewrite generateSsg_merged, lookup_insert_eq. reflexivity.
  - destruct p as [dcwd penv]. vm_compute. reflexivity.
Qed.

(** * Further properties of the code *)

(** ** What the caller of [generateSsg] gets *)

Lemma milestone_assert (b : bool) (msg : string) :
  omap milestone_of (assert b msg) = [].
Proof. by destruct b. Qed.

Lemma milestone_unhandled (r : result unit) :
  omap milestone_of (unhandled r) = [].
Proof. by destruct r. Qed.

Lemma step_reached (p : process) (s s' : state) (e : event)
    (acts : list action) (ms : list milestone) :
  reached s ms -> step p s e = Some (s', acts) ->
  reached s' (ms ++ omap milestone_of acts).
Proof.
  unfold reached.
  destruct s as [v c ep cp ch l t f w]. intros I H.
  step_cases H; simpl in *; simplify_eq;
    rewrite ?omap_app, ?milestone_assert, ?milestone_unhandled; simpl;
    rewrite ?app_nil_r; auto.
Qed.

(** X1: [_generateSsg] fulfils its promise only after it has spawned the
    child and registered the readiness callback, in this order and as the
    last thing it does for its caller; a rejected promise comes with no
    registration, before the spawn or right after it; while the function is
    suspended at an [await] it has done none of the three. *)
Theorem fulfilled_after_registration
    (p : process) (parObj : gmap string val) (es : list event)
    (s : state) (tr : list action) :
  run p parObj es = Some (s, tr) ->
  match pc s with
  | Settled Fulfilled =>
      omap milestone_of tr = [Spawned; Registered; Returned Fulfilled]
  | Settled (Rejected e) =>
      omap milestone_of tr = [Returned (Rejected e)]
      \/ omap milestone_of tr = [Spawned; Returned (Rejected e)]
  | _ => omap milestone_of tr = []
  end.
Proof.
  revert es s tr.
  apply (run_invariant p parObj
           (fun s tr _ => reached s (omap milestone_of tr))).
  - unfold reached, generateSsg, _generateSsg, throw.
    destruct (dir _); simpl; auto.
  - intros s tr es e s' acts IH Hstep.
    rewrite omap_app. by eapply step_reached.
Qed.

Lemma fulfilled_after_registration_witness :
  exists s tr,
    run node port3000_wait50
      [pathExists_done true; ensureDir_done (Ok ()); timeout;
       get_done (Failed refused)] = Some (s, tr)
    /\ pc s = Settled Fulfilled
    /\ omap milestone_of tr = [Spawned; Registered; Returned Fulfilled].
Proof.
  destruct (run _ _ _) as [[s tr]|] eqn:H;
    [|vm_compute in H; discriminate H].
  exists s, tr. split; [reflexivity|].
  pose proof (fulfilled_after_registration _ _ _ _ _ H) as Hm.
  assert (Hpc : pc s = Settled Fulfilled).
  { vm_compute in H. by injection H as <- <-. }
  rewrite Hpc in Hm. by split.
Defined.

(** ** The child process *)

Lemma step_child (p : process) (s s' : state) (e : event)
    (acts : list action) :
  child_inv s -> step p s e = Some (s', acts) ->
  child_inv s'
  /\ (children s + count is_spawn acts)%nat = children s'
  /\ (count is_watch acts <= count is_spawn acts)%nat
  /\ ((0 < count is_get acts)%nat -> srvProc s <> None).
Proof.
  unfold child_inv, children.
  destruct s as [v c ep cp ch l t f w]. intros [I1 I2] H.
  step_cases H; simpl in *; simplify_eq; count_actions;
    unfold captureIndex, captureIndex_then, count; simpl;
    intuition (try congruence; try lia).
Qed.

Lemma run_child (p : process) (parObj : gmap string val) (es : list event)
    (s : state) (tr : list action) :
  run p parObj es = Some (s, tr) ->
  child_inv s
  /\ count is_spawn tr = children s
  /\ (count is_watch tr <= count is_spawn tr)%nat
  /\ ((0 < count is_get tr)%nat -> srvProc s <> None).
Proof.
  revert es s tr.
  apply (run_invariant p parObj
           (fun s tr _ =>
              child_inv s
              /\ count is_spawn tr = children s
              /\ (count is_watch tr <= count is_spawn tr)%nat
              /\ ((0 < count is_get tr)%nat -> srvProc s <> None))).
  - rewrite !generateSsg_quiet by done.
    unfold child_inv, children, generateSsg, _generateSsg, throw.
    destruct (dir _); simpl; intuition (try congruence; try lia).
  - intros s tr es e s' acts (I & Hs & Hw & Hg) Hstep.
    destruct (step_child _ _ _ _ _ I Hstep) as (I' & Hs' & Hw' & Hg').
    rewrite !count_app. split_and!; [done|lia|lia|].
    intros Hpos. unfold children in *.
    destruct (srvProc s'); [done|].
    destruct (srvProc s) eqn:Hc; [lia|].
    destruct (count is_get tr); destruct (count is_get acts);
      try lia; (by apply Hg; lia) || (by apply Hg'; lia).
Qed.

(** X2: A run spawns at most one child and registers at most one readiness
    callback, and none without a child; a fetch is issued, and [kill] is
    invoked, only in a run that has spawned its child. *)
Theorem one_child_one_watcher
    (p : process) (parObj : gmap string val) (es : list event)
    (s : state) (tr : list action) :
  run p parObj es = Some (s, tr) ->
  (count is_spawn tr <= 1)%nat
  /\ (count is_watch tr <= count is_spawn tr)%nat
  /\ ((0 < count is_get tr)%nat -> count is_spawn tr = 1%nat)
  /\ ((0 < count is_kill tr)%nat -> count is_spawn tr = 1%nat).
Proof.
  intros Hrun.
  destruct (run_child _ _ _ _ _ Hrun) as (_ & Hs & Hw & Hg).
  pose proof (run_kill_after_get _ _ _ _ _ Hrun) as Hk.
  rewrite Hs in *. unfold children in *.
  destruct (srvProc s); split_and!; try lia;
    intros; exfalso; apply Hg; (done || lia).
Qed.

Lemma one_child_one_watcher_witness :
  exists s tr,
    run node port3000
      [pathExists_done true; ensureDir_done (Ok ());
       stdout_data "Server listening"; stdout_data " at port 3000"]
    = Some (s, tr)
    /\ count is_spawn tr = 1%nat.
Proof.
  destruct (run _ _ _) as [[s tr]|] eqn:H;
    [|vm_compute in H; discriminate H].
  exists s, tr. split; [reflexivity|].
  destruct (one_child_one_watcher _ _ _ _ _ H) as (_ & _ & Hget & _).
  apply Hget. vm_compute in H. injection H as <- <-. vm_compute. lia.
Defined.

(** ** The capture *)

Lemma omap_assert {A : Type} (f : action -> option A) (b : bool)
    (msg : string) :
  f (AssertionFailed msg) = None -> omap f (assert b msg) = [].
Proof. intros Hf. destruct b; simpl; by rewrite ?Hf. Qed.

Lemma omap_unhandled {A : Type} (f : action -> option A) (r : result unit) :
  (forall e, f (UnhandledRejection e) = None) -> omap f (unhandled r) = [].
Proof. intros Hf. destruct r; simpl; by rewrite ?Hf. Qed.

Ltac omap_actions :=
  rewrite ?omap_app, ?omap_assert, ?omap_unhandled by done.

Lemma generateSsg_silent {A : Type} (p : process) (parObj : gmap string val)
    (f : action -> option A) :
  (forall v, f (Call (pathExists v)) = None) ->
  (forall r, f (Return r) = None) ->
  omap f (snd (generateSsg p parObj)) = [].
Proof.
  intros H1 H2. unfold generateSsg, _generateSsg, throw.
  destruct (dir _); simpl; by rewrite ?H1, ?H2.
Qed.

Lemma step_written (p : process) (s s' : state) (e : event)
    (acts : list action) :
  step p s e = Some (s', acts) ->
  omap written acts
  = match body e with
    | Some data => [("dist/ssg/index.html", data)]
    | None => []
    end.
Proof.
  intros H. step_cases H; simpl in *; simplify_eq; omap_actions; reflexivity.
Qed.

Lemma run_written
    (p : process) (parObj : gmap string val) (es : list event)
    (s : state) (tr : list action) :
  run p parObj es = Some (s, tr) ->
  omap written tr
  = (fun data => ("dist/ssg/index.html", data)) <$> omap body es.
Proof.
  revert es s tr.
  apply (run_invariant p parObj
           (fun _ tr es =>
              omap written tr
              = (fun data => ("dist/ssg/index.html", data)) <$> omap body es)).
  - by apply generateSsg_silent.
  - intros s tr es e s' acts IH Hstep.
    rewrite !omap_app, fmap_app, IH, (step_written _ _ _ _ _ Hstep).
    f_equal. simpl. by destruct (body e).
Qed.

(** X3: Whatever [dir.ssg] is, the documents a run writes are the bodies of the
    fetches that fulfilled, unchanged and in the order of their arrival,
    each to the path ['dist/ssg/index.html']; nothing else is written. *)
Theorem documents_written
    (p : process) (parObj : gmap string val) (es : list event)
    (s : state) (tr : list action) :
  run p parObj es = Some (s, tr) ->
  omap written tr
  = (fun data => ("dist/ssg/index.html", data)) <$> omap body es.
Proof. apply run_written. Qed.

Lemma documents_written_witness :
  exists s tr,
    run node port3000_out
      [pathExists_done true; ensureDir_done (Ok ()); stdout_data "ready";
       get_done (Ok "<html></html>")] = Some (s, tr)
    /\ omap written tr = [("dist/ssg/index.html", "<html></html>")].
Proof.
  destruct (run _ _ _) as [[s tr]|] eqn:H;
    [|vm_compute in H; discriminate H].
  exists s, tr. split; [reflexivity|].
  by rewrite (documents_written _ _ _ _ _ H).
Defined.

Lemma step_ready (p : process) (s s' : state) (e : event)
    (acts : list action) :
  step p s e = Some (s', acts) ->
  (count is_get acts <= if is_ready e then 1 else 0)%nat.
Proof.
  intros H. step_cases H; simpl in *; simplify_eq; count_actions;
    unfold captureIndex, captureIndex_then, count; simpl; lia.
Qed.

(** X4: A fetch is issued only in a turn in which the child writes to its
    standard output or the timer fires, and at most one in such a turn:
    the fetches of a run never outnumber these readiness signals. *)
Theorem fetch_only_on_readiness
    (p : process) (parObj : gmap string val) (es : list event)
    (s : state) (tr : list action) :
  run p parObj es = Some (s, tr) ->
  (count is_get tr <= count is_ready es)%nat.
Proof.
  revert es s tr.
  apply (run_invariant p parObj
           (fun _ tr es => (count is_get tr <= count is_ready es)%nat)).
  - rewrite generateSsg_quiet by done. lia.
  - intros s tr es e s' acts IH Hstep.
    rewrite count_app, count_snoc.
    pose proof (step_ready _ _ _ _ _ Hstep). lia.
Qed.

Lemma fetch_only_on_readiness_witness :
  exists s tr,
    run node port3000_wait50
      [pathExists_done true; ensureDir_done (Ok ()); emptyDir_done (Ok ());
       copy_done (Ok ())] = Some (s, tr)
    /\ count is_get tr = 0%nat.
Proof.
  destruct (run _ _ _) as [[s tr]|] eqn:H;
    [|vm_compute in H; discriminate H].
  exists s, tr. split; [reflexivity|].
  pose proof (fetch_only_on_readiness _ _ _ _ _ H) as Hle.
  unfold count in *. simpl in Hle. lia.
Defined.

Lemma step_port_agreed (p : process) (s s' : state) (e : event)
    (tr acts : list action) :
  child_inv s -> port_agreed s tr ->
  step p s e = Some (s', acts) ->
  port_agreed s' (tr ++ acts).
Proof.
  unfold child_inv, port_agreed, spawned_ports.
  destruct s as [[c0 p0 w0 d0] c ep cp ch l t f w]. intros [I1 I2] J H.
  step_cases H; simpl in *; simplify_eq; omap_actions; simpl;
    rewrite ?app_nil_r; try done.
  all: destruct J as [J1 J2]; rewrite ?J1, ?J2, ?Forall_app; simpl.
  all: try (by repeat constructor).
  all: exfalso; by apply I2.
Qed.

(** X5: Every fetch of a run goes to the port that was handed to its child in
    the variable [PORT]. *)
Theorem fetch_goes_to_spawned_port
    (p : process) (parObj : gmap string val) (es : list event)
    (s : state) (tr : list action) :
  run p parObj es = Some (s, tr) ->
  Forall (fun v => spawned_ports tr = [v]) (omap fetched_port tr).
Proof.
  intros Hrun.
  cut (child_inv s /\ port_agreed s tr).
  { unfold port_agreed. intros [_ J]. destruct (srvProc s).
    - destruct J as [-> J]. eapply Forall_impl; [exact J|].
      by intros x <-.
    - destruct J as [_ ->]. constructor. }
  revert es s tr Hrun.
  apply (run_invariant p parObj (fun s tr _ => child_inv s /\ port_agreed s tr)).
  - unfold child_inv, port_agreed, spawned_ports.
    rewrite !generateSsg_silent by done.
    unfold generateSsg, _generateSsg, throw. by destruct (dir _).
  - intros s tr es e s' acts [I J] Hstep. split.
    + by destruct (step_child _ _ _ _ _ I Hstep).
    + by eapply step_port_agreed.
Qed.

Lemma fetch_goes_to_spawned_port_witness :
  exists s tr,
    run node range_5000_5010
      [pathExists_done true; ensureDir_done (Ok ());
       getPort_done (Ok (Fin 5003)); stdout_data "ready"] = Some (s, tr)
    /\ omap fetched_port tr = [VNum (Fin 5003)]
    /\ spawned_ports tr = [VNum (Fin 5003)].
Proof.
  destruct (run _ _ _) as [[s tr]|] eqn:H;
    [|vm_compute in H; discriminate H].
  exists s, tr. split; [reflexivity|].
  pose proof (fetch_goes_to_spawned_port _ _ _ _ _ H) as Hall.
  assert (Hf : omap fetched_port tr = [VNum (Fin 5003)]).
  { vm_compute in H. by injection H as <- <-. }
  split; [exact Hf|]. rewrite Hf in Hall. by inversion Hall.
Defined.


(** ** Failures before the spawn *)

Lemma step_settled (p : process) (s s' : state) (e : event)
    (acts : list action) (r : outcome) :
  pc s = Settled r -> step p s e = Some (s', acts) ->
  pc s' = Settled r /\ srvProc s' = srvProc s.
Proof.
  destruct s as [v c ep cp ch l t f w]. intros Hpc H. simpl in *. subst c.
  step_cases H; simpl in *; simplify_eq; done.
Qed.

Lemma step_fatal (p : process) (s s' : state) (e : event)
    (acts : list action) (err : error) :
  child_inv s -> fatal err e -> step p s e = Some (s', acts) ->
  pc s' = Settled (Rejected err) /\ srvProc s' = None.
Proof.
  unfold child_inv.
  destruct s as [v c ep cp ch l t f w]. intros [I _] [->| ->] H; simpl in *.
  all: destruct c; simplify_eq; unfold throw in *; simplify_eq; done.
Qed.

(** X6: If [ensureDir] or [getPort] fails, the promise of [generateSsg] is
    rejected with that error and the run spawns no child. *)
Theorem library_failure_rejects
    (p : process) (parObj : gmap string val) (es : list event)
    (s : state) (tr : list action) (e : event) (err : error) :
  run p parObj es = Some (s, tr) ->
  In e es -> fatal err e ->
  pc s = Settled (Rejected err) /\ count is_spawn tr = 0%nat.
Proof.
  intros Hrun Hin Hfatal.
  destruct (run_child _ _ _ _ _ Hrun) as (_ & -> & _). unfold children.
  cut (pc s = Settled (Rejected err) /\ srvProc s = None).
  { by intros [-> ->]. }
  revert Hin. revert es s tr Hrun.
  apply (run_invariant p parObj
           (fun s tr es =>
              child_inv s
              /\ (In e es -> pc s = Settled (Rejected err) /\ srvProc s = None))).
  - split; [|intros []].
    unfold child_inv, generateSsg, _generateSsg, throw.
    destruct (dir _); simpl; done.
  - intros s tr es e' s' acts [I IH] Hstep. split.
    + by destruct (step_child _ _ _ _ _ I Hstep).
    + intros [Hin|[<-|[]]]%in_app_iff.
      * destruct (IH Hin) as [Hpc Hch].
        destruct (step_settled _ _ _ _ _ _ Hpc Hstep) as [-> ->]. done.
      * by eapply step_fatal.
Qed.

Lemma library_failure_rejects_witness :
  exists s tr,
    run node range_5000_5010
      [pathExists_done true; ensureDir_done (Ok ());
       getPort_done (Failed (LibError "No open ports found in between 5000 and 5010"));
       copy_done (Ok ())] = Some (s, tr)
    /\ pc s = Settled (Rejected (LibError "No open ports found in between 5000 and 5010"))
    /\ count is_spawn tr = 0%nat.
Proof.
  destruct (run _ _ _) as [[s tr]|] eqn:H;
    [|vm_compute in H; discriminate H].
  exists s, tr. split; [reflexivity|].
  eapply (library_failure_rejects _ _ _ _ _ _ _ H).
  - right. right. left. reflexivity.
  - right. reflexivity.
Defined.

Lemma step_invalid_wait (p : process) (s s' : state) (e : event)
    (acts : list action) :
  typeof (wait (vars s)) <> "string" -> typeof (wait (vars s)) <> "number" ->
  srvProc s = None -> pc s <> Settled Fulfilled ->
  step p s e = Some (s', acts) ->
  srvProc s' = None /\ pc s' <> Settled Fulfilled.
Proof.
  destruct s as [[c0 p0 w0 d0] c ep cp ch l t f w]. intros Hs Hn Hc Hpc H.
  simpl in *. subst ch.
  step_cases H; simpl in *; simplify_eq; done.
Qed.

(** X7: When [wait] is neither a string nor a number, no child is spawned, no
    fetch is issued and the promise of [generateSsg] is never fulfilled. *)
Theorem invalid_wait_never_spawns
    (p : process) (parObj : gmap string val) (es : list event)
    (s : state) (tr : list action) :
  typeof (wait (params p parObj)) <> "string" ->
  typeof (wait (params p parObj)) <> "number" ->
  run p parObj es = Some (s, tr) ->
  count is_spawn tr = 0%nat
  /\ count is_get tr = 0%nat
  /\ pc s <> Settled Fulfilled.
Proof.
  intros Hs Hn Hrun.
  destruct (run_child _ _ _ _ _ Hrun) as (_ & -> & _ & Hget). unfold children.
  cut (wait (vars s) = wait (params p parObj)
       /\ srvProc s = None /\ pc s <> Settled Fulfilled).
  { intros (_ & Hc & Hpc). rewrite Hc in *.
    split_and!; [done| |done].
    destruct (count is_get tr); [done|]. exfalso. apply Hget; [lia|done]. }
  clear Hget. revert es s tr Hrun.
  apply (run_invariant p parObj
           (fun s _ _ =>
              wait (vars s) = wait (params p parObj)
              /\ srvProc s = None /\ pc s <> Settled Fulfilled)).
  - rewrite vars_generateSsg.
    unfold generateSsg, _generateSsg, throw. by destruct (dir _).
  - intros s tr es e s' acts (Hw & Hc & Hpc) Hstep.
    rewrite (step_wait _ _ _ _ _ Hstep). split; [done|].
    eapply step_invalid_wait; eauto; by rewrite Hw.
Qed.

Lemma invalid_wait_never_spawns_witness :
  exists s tr,
    run node {[ "port" := VNum (Fin 3000); "wait" := VBool true ]}
      [pathExists_done true; ensureDir_done (Ok ())] = Some (s, tr)
    /\ count is_spawn tr = 0%nat
    /\ count is_get tr = 0%nat
    /\ pc s <> Settled Fulfilled.
Proof.
  destruct (run _ _ _) as [[s tr]|] eqn:H;
    [|vm_compute in H; discriminate H].
  exists s, tr. split; [reflexivity|].
  apply (invalid_wait_never_spawns _ _ _ _ _) in H; [exact H|..];
    vm_compute; discriminate.
Defined.

(** ** Strategies that never capture *)

Lemma event_of_not_data (w : string) :
  w <> "stdout" -> is_str (member event_of w) "data" = false.
Proof.
  intros Hw. unfold member, event_of.
  rewrite lookup_insert_ne by done.
  destruct (decide (w = "ipc")) as [->|Hipc]; [done|].
  rewrite lookup_singleton_ne by done.
  destruct (String.eqb w "__proto__"); [done|].
  by destruct (includes Object_prototype w).
Qed.

Lemma length_bodies (es : list event) :
  length (omap body es) = count fetch_fulfilled es.
Proof.
  unfold count. induction es as [|e es IH]; [done|].
  destruct e as [| | | | | | | |[]|]; simpl; try f_equal; exact IH.
Qed.

Lemma step_deaf (p : process) (s s' : state) (e : event)
    (acts : list action) (w : string) :
  wait (vars s) = VStr w -> w <> "stdout" ->
  timer s = false -> listens (listener s) "data" = false ->
  step p s e = Some (s', acts) ->
  timer s' = false /\ listens (listener s') "data" = false
  /\ count is_get acts = 0%nat.
Proof.
  destruct s as [[c0 p0 w0 d0] c ep cp ch l t f w1]. intros Hw Hne Ht Hl H.
  simpl in *. subst w0 t.
  step_cases H; simpl in *; simplify_eq; count_actions;
    rewrite ?event_of_not_data by done; try done.
  congruence.
Qed.

(** X8: Under a string [wait] other than ['stdout'] (so also under ['ipc']) the
    readiness callback never runs: no fetch is issued, no document is
    written and [kill] is never invoked. *)
Theorem only_stdout_string_captures
    (p : process) (parObj : gmap string val) (es : list event)
    (s : state) (tr : list action) (w : string) :
  wait (params p parObj) = VStr w -> w <> "stdout" ->
  run p parObj es = Some (s, tr) ->
  count is_get tr = 0%nat
  /\ omap written tr = []
  /\ count is_kill tr = 0%nat.
Proof.
  intros Hw Hne Hrun.
  pose proof (run_kill_after_get _ _ _ _ _ Hrun) as Hk.
  cut (count is_get tr = 0%nat).
  { intros Hg. split; [exact Hg|]. split; [|lia].
    pose proof (run_kills _ _ _ _ _ Hrun) as Hkills.
    pose proof (f_equal length (run_written _ _ _ _ _ Hrun)) as Hlen.
    rewrite length_fmap in Hlen.
    pose proof (length_bodies es) as Hb.
    destruct (omap written tr); [done|]. simpl in Hlen. lia. }
  cut (wait (vars s) = VStr w /\ timer s = false
       /\ listens (listener s) "data" = false /\ count is_get tr = 0%nat);
    [tauto|].
  clear Hk. revert es s tr Hrun.
  apply (run_invariant p parObj
           (fun s tr _ =>
              wait (vars s) = VStr w /\ timer s = false
              /\ listens (listener s) "data" = false
              /\ count is_get tr = 0%nat)).
  - rewrite vars_generateSsg, generateSsg_quiet by done.
    unfold generateSsg, _generateSsg, throw. by destruct (dir _).
  - intros s tr es e s' acts (Hw' & Ht & Hl & Hg) Hstep.
    rewrite (step_wait _ _ _ _ _ Hstep), count_app, Hg.
    destruct (step_deaf _ _ _ _ _ _ Hw' Hne Ht Hl Hstep) as (? & ? & ->).
    done.
Qed.

Lemma only_stdout_string_captures_witness :
  exists s tr,
    run node port3000_ipc
      [pathExists_done true; ensureDir_done (Ok ()); ipc_message (VStr "ready")]
    = Some (s, tr)
    /\ count is_get tr = 0%nat
    /\ omap written tr = []
    /\ count is_kill tr = 0%nat.
Proof.
  destruct (run _ _ _) as [[s tr]|] eqn:H;
    [|vm_compute in H; discriminate H].
  exists s, tr. split; [reflexivity|].
  by apply (only_stdout_string_captures _ _ _ _ _ "ipc") in H.
Defined.

(** ** The parameters *)

Lemma params_lookup (p : process) (parObj : gmap string val) :
  cwd (params p parObj) = default (VStr (process_cwd p)) (parObj !! "cwd")
  /\ port (params p parObj) = default VUndef (parObj !! "port")
  /\ wait (params p parObj) = default (VStr "stdout") (parObj !! "wait")
  /\ dir (params p parObj) = default (VObj defaultDir) (parObj !! "dir").
Proof.
  unfold params, destructure, merge. simpl.
  rewrite !lookup_union.
  destruct (parObj !! "cwd"), (parObj !! "port"), (parObj !! "wait"),
    (parObj !! "dir"); done.
Qed.

(** X10: When [dir] is supplied as [undefined], the promise of [generateSsg] is
    rejected with a [TypeError] before any library call, and no turn of the
    event loop can concern the invocation afterwards. *)
Theorem undefined_dir_rejects_at_once
    (p : process) (parObj : gmap string val) (es : list event)
    (s : state) (tr : list action) :
  parObj !! "dir" = Some VUndef ->
  run p parObj es = Some (s, tr) ->
  es = []
  /\ tr = [Return (Rejected
             (TypeError "Cannot read properties of undefined (reading 'ssr')"))].
Proof.
  intros Hdir. unfold run, generateSsg, _generateSsg.
  assert (Hd : dir (destructure (merge p parObj)) = VUndef).
  { destruct (params_lookup p parObj) as (_ & _ & _ & Hd).
    unfold params in Hd. by rewrite Hd, Hdir. }
  rewrite Hd. unfold throw. simpl.
  destruct es as [|e es]; simpl.
  - by intros [= <- <-].
  - by destruct e as [| [] | | | [] | | | | |].
Qed.

Lemma undefined_dir_rejects_at_once_witness :
  exists s tr,
    run node {[ "dir" := VUndef ]} [] = Some (s, tr)
    /\ tr = [Return (Rejected
               (TypeError "Cannot read properties of undefined (reading 'ssr')"))].
Proof.
  destruct (run _ _ _) as [[s tr]|] eqn:H;
    [|vm_compute in H; discriminate H].
  exists s, tr. split; [reflexivity|].
  by apply undefined_dir_rejects_at_once in H as [_ ->].
Defined.

(** ** Errors that reach nobody *)

Lemma step_unhandled (p : process) (s s' : state) (e : event)
    (acts : list action) :
  step p s e = Some (s', acts) ->
  omap unhandled_error acts = option_list (dropped_error e).
Proof.
  intros H. step_cases H; simpl in *; simplify_eq; omap_actions;
    try reflexivity; by destruct r.
Qed.

Lemma run_unhandled (p : process) (parObj : gmap string val) (es : list event)
    (s : state) (tr : list action) :
  run p parObj es = Some (s, tr) ->
  omap unhandled_error tr = omap dropped_error es.
Proof.
  revert es s tr.
  apply (run_invariant p parObj
           (fun _ tr es => omap unhandled_error tr = omap dropped_error es)).
  - by apply generateSsg_silent.
  - intros s tr es e s' acts IH Hstep.
    rewrite !omap_app, IH, (step_unhandled _ _ _ _ _ Hstep).
    simpl. by destruct (dropped_error e).
Qed.

(** X11: The errors of [emptyDir], of [copy], of the fetch and of the write of
    the document become unhandled promise rejections, one each and in the
    order in which they occur; no other error does. *)
Theorem unhandled_rejections
    (p : process) (parObj : gmap string val) (es : list event)
    (s : state) (tr : list action) :
  run p parObj es = Some (s, tr) ->
  omap unhandled_error tr = omap dropped_error es.
Proof. apply run_unhandled. Qed.

Lemma unhandled_rejections_witness :
  exists s tr,
    run node port3000
      [pathExists_done true; copy_done (Failed (LibError "ENOENT"));
       ensureDir_done (Ok ()); stdout_data "ready";
       get_done (Failed refused)] = Some (s, tr)
    /\ omap unhandled_error tr = [LibError "ENOENT"; refused].
Proof.
  destruct (run _ _ _) as [[s tr]|] eqn:H;
    [|vm_compute in H; discriminate H].
  exists s, tr. split; [reflexivity|].
  by rewrite (unhandled_rejections _ _ _ _ _ H).
Defined.

(** ** Answers the run does not depend on *)

(** If every turn can be replayed on a changed event with the same next
    state and the same actions among those [g] keeps, so can every run. *)
Lemma steps_replay (p : process) (f : event -> event) (g : action -> bool) :
  (forall s e s' acts,
      step p s e = Some (s', acts) ->
      exists acts', step p s (f e) = Some (s', acts')
                    /\ List.filter g acts' = List.filter g acts) ->
  forall es s s' tr,
    steps p s es = Some (s', tr) ->
    exists tr', steps p s (f <$> es) = Some (s', tr')
                /\ List.filter g tr' = List.filter g tr.
Proof.
  intros Hstep. induction es as [|e es IH]; intros s s' tr H; simpl in *.
  - injection H as <- <-. by exists [].
  - destruct (step p s e) as [[s1 acts]|] eqn:He; [|discriminate].
    destruct (steps p s1 es) as [[s2 rest]|] eqn:Hes; [|discriminate].
    injection H as <- <-.
    destruct (Hstep _ _ _ _ He) as (acts' & He' & Ha).
    destruct (IH _ _ _ Hes) as (rest' & Hes' & Hr).
    exists (acts' ++ rest'). simpl. rewrite He'.
    change (list_fmap event event f es) with (f <$> es). rewrite Hes'.
    by rewrite !List.filter_app, Ha, Hr.
Qed.

Lemma run_replay (p : process) (parObj : gmap string val)
    (f : event -> event) (g : action -> bool) :
  (forall s e s' acts,
      step p s e = Some (s', acts) ->
      exists acts', step p s (f e) = Some (s', acts')
                    /\ List.filter g acts' = List.filter g acts) ->
  forall es s tr,
    run p parObj es = Some (s, tr) ->
    exists tr', run p parObj (f <$> es) = Some (s, tr')
                /\ List.filter g tr' = List.filter g tr.
Proof.
  intros Hstep es s tr. unfold run.
  destruct (generateSsg p parObj) as [s0 tr0].
  destruct (steps p s0 es) as [[s1 rest]|] eqn:Hes; [|discriminate].
  intros [= <- <-].
  destruct (steps_replay p f g Hstep _ _ _ _ Hes) as (rest' & Hes' & Hr).
  exists (tr0 ++ rest'). by rewrite Hes', !List.filter_app, Hr.
Qed.

Lemma step_calm (p : process) (s s' : state) (e : event)
    (acts : list action) :
  step p s e = Some (s', acts) ->
  exists acts', step p s (calm e) = Some (s', acts')
                /\ List.filter unasserted acts' = List.filter unasserted acts.
Proof.
  intros H. destruct e; try (by exists acts); simpl in *.
  destruct (pc s); try discriminate. injection H as <- <-.
  eexists. split; [reflexivity|]. by destruct b.
Qed.

(** X13: The answer of [pathExists] changes nothing but the printed message:
    with [dir.ssr] existing, the same turns lead to the same state with the
    same actions in the same order, assertion messages apart. *)
Theorem pathExists_answer_ignored
    (p : process) (parObj : gmap string val) (es : list event)
    (s : state) (tr : list action) :
  run p parObj es = Some (s, tr) ->
  exists tr', run p parObj (calm <$> es) = Some (s, tr')
              /\ List.filter unasserted tr' = List.filter unasserted tr.
Proof.
  intros H. eapply run_replay in H; [exact H|].
  intros. by apply step_calm.
Qed.

Lemma pathExists_answer_ignored_witness :
  exists s tr tr',
    run node port3000
      [pathExists_done false; ensureDir_done (Ok ()); stdout_data "ready"]
    = Some (s, tr)
    /\ run node port3000
         [pathExists_done true; ensureDir_done (Ok ()); stdout_data "ready"]
       = Some (s, tr')
    /\ List.filter unasserted tr' = List.filter unasserted tr.
Proof.
  destruct (run _ _ _) as [[s tr]|] eqn:H;
    [|vm_compute in H; discriminate H].
  destruct (pathExists_answer_ignored _ _ _ _ _ H) as (tr' & H' & Heq).
  by exists s, tr, tr'.
Defined.

(** ** The free-port search *)

Lemma step_search (p : process) (port0 : val) (r : option (val * val))
    (s s' : state) (e : event) (acts : list action) :
  resolve p port0 = Search r ->
  port_pending port0 s ->
  step p s e = Some (s', acts) ->
  port_pending port0 s'
  /\ Forall (eq r) (omap searched acts)
  /\ Forall (found_in [e]) (spawned_ports acts).
Proof.
  unfold port_pending, spawned_ports, found_in.
  destruct s as [[c0 p0 w0 d0] c ep cp ch l t f w]. intros Hres I H.
  step_cases H; simpl in *; simplify_eq; omap_actions; simpl;
    split_and?; try done.
  all: try congruence.
  all: repeat constructor; try congruence; eauto.
Qed.

Lemma run_search (p : process) (parObj : gmap string val)
    (r : option (val * val)) (es : list event) (s : state)
    (tr : list action) :
  resolve p (port (params p parObj)) = Search r ->
  run p parObj es = Some (s, tr) ->
  Forall (eq r) (omap searched tr)
  /\ Forall (found_in es) (spawned_ports tr).
Proof.
  intros Hres Hrun.
  cut (port_pending (port (params p parObj)) s
       /\ Forall (eq r) (omap searched tr)
       /\ Forall (found_in es) (spawned_ports tr)); [tauto|].
  revert es s tr Hrun.
  apply (run_invariant p parObj
           (fun s tr es =>
              port_pending (port (params p parObj)) s
              /\ Forall (eq r) (omap searched tr)
              /\ Forall (found_in es) (spawned_ports tr))).
  - unfold spawned_ports. rewrite !generateSsg_silent by done.
    unfold port_pending, params, generateSsg, _generateSsg, throw.
    destruct (dir _); simpl; split_and?; done || constructor.
  - intros s tr es e s' acts (I & Hs & Hp) Hstep.
    destruct (step_search _ _ _ _ _ _ _ Hres I Hstep) as (I' & Hs' & Hp').
    unfold spawned_ports in *. rewrite !omap_app, !Forall_app.
    split_and!; try done.
    + eapply Forall_impl; [exact Hp|].
      intros v (n & -> & Hin). exists n. split; [done|].
      apply in_app_iff. by left.
    + eapply Forall_impl; [exact Hp'|].
      intros v (n & -> & Hin). exists n. split; [done|].
      apply in_app_iff. by right.
Qed.

Lemma step_searched_once (p : process) (port0 : val) (r : option (val * val))
    (s s' : state) (e : event) (acts : list action) (b : bool)
    (l : list (option (val * val))) :
  resolve p port0 = Search r ->
  searched_once port0 r s b l ->
  step p s e = Some (s', acts) ->
  searched_once port0 r s' (b || ensured e) (l ++ omap searched acts).
Proof.
  unfold searched_once.
  destruct s as [[c0 p0 w0 d0] c ep cp ch l0 t f w]. intros Hres [-> I] H.
  step_cases H; simpl in *; simplify_eq; omap_actions; simpl;
    rewrite ?app_nil_r, ?orb_false_r, ?orb_true_r;
    destruct_and?; subst; try congruence; try done.
  all: try destruct b; try done.
  split; [congruence|done].
Qed.

Lemma existsb_snoc {A : Type} (f : A -> bool) (l : list A) (x : A) :
  existsb f (l ++ [x]) = existsb f l || f x.
Proof. rewrite existsb_app. simpl. by rewrite orb_false_r. Qed.

Lemma run_searched_once (p : process) (parObj : gmap string val)
    (r : option (val * val)) (es : list event) (s : state)
    (tr : list action) :
  resolve p (port (params p parObj)) = Search r ->
  run p parObj es = Some (s, tr) ->
  omap searched tr = if existsb ensured es then [r] else [].
Proof.
  intros Hres Hrun.
  cut (searched_once (port (params p parObj)) r s (existsb ensured es)
         (omap searched tr)).
  { by intros [? _]. }
  revert es s tr Hrun.
  apply (run_invariant p parObj
           (fun s tr es =>
              searched_once (port (params p parObj)) r s (existsb ensured es)
                (omap searched tr))).
  - unfold searched_once. rewrite generateSsg_silent by done.
    unfold params, generateSsg, _generateSsg, throw.
    by destruct (dir _).
  - intros s tr es e s' acts I Hstep.
    rewrite omap_app, existsb_snoc. by eapply step_searched_once.
Qed.

(** X14: When the environment port is unset, not a number or zero, the
    free-port search is called exactly once, in the turn in which
    [ensureDir] succeeds: without range for a port that is absent or zero,
    from [low] to [high] for a two-element array [[low, high]]; the child
    is then spawned with a port that search answered with. *)
Theorem free_port_search
    (p : process) (parObj : gmap string val) (es : list event)
    (s : state) (tr : list action) :
  truthy (envPort p) = false ->
  run p parObj es = Some (s, tr) ->
  let configured := port (params p parObj) in
  (configured = VUndef \/ configured = VNum (Fin 0) ->
   omap searched tr = (if existsb ensured es then [None] else [])
   /\ Forall (eq None) (omap searched tr)
   /\ Forall (found_in es) (spawned_ports tr))
  /\ (forall lo hi, configured = VArr [lo; hi] ->
      omap searched tr = (if existsb ensured es then [Some (lo, hi)] else [])
      /\ Forall (eq (Some (lo, hi))) (omap searched tr)
      /\ Forall (found_in es) (spawned_ports tr)).
Proof.
  intros Henv Hrun configured. split.
  - intros Hc.
    assert (Hres : resolve p configured = Search None).
    { unfold resolve. rewrite Henv. by destruct Hc as [->| ->]. }
    split; [by eapply run_searched_once|]. by eapply run_search.
  - intros lo hi Hc.
    assert (Hres : resolve p configured = Search (Some (lo, hi))).
    { unfold resolve. by rewrite Henv, Hc. }
    split; [by eapply run_searched_once|]. by eapply run_search.
Qed.

Lemma free_port_search_witness :
  exists s tr,
    run node range_5000_5010
      [pathExists_done true; ensureDir_done (Ok ());
       getPort_done (Ok (Fin 5003))] = Some (s, tr)
    /\ omap searched tr = [Some (VNum (Fin 5000), VNum (Fin 5010))]
    /\ Forall (found_in
                 [pathExists_done true; ensureDir_done (Ok ());
                  getPort_done (Ok (Fin 5003))]) (spawned_ports tr).
Proof.
  destruct (run _ _ _) as [[s tr]|] eqn:H;
    [|vm_compute in H; discriminate H].
  exists s, tr. split; [reflexivity|].
  destruct (free_port_search node _ _ _ _ eq_refl H) as [_ Hrange].
  destruct (Hrange (VNum (Fin 5000)) (VNum (Fin 5010)) eq_refl)
    as (Hs & _ & Hp).
  by split.
Defined.

(** ** The spawned command *)

Lemma step_vars (p : process) (s s' : state) (e : event)
    (acts : list action) :
  step p s e = Some (s', acts) ->
  cwd (vars s') = cwd (vars s) /\ dir (vars s') = dir (vars s).
Proof.
  destruct s as [v c ep cp ch l t f w]. intros H.
  step_cases H; done.
Qed.

Lemma Forall_assert (P : action -> Prop) (b : bool) (msg : string) :
  P (AssertionFailed msg) -> Forall P (assert b msg).
Proof. intros HP. destruct b; by repeat constructor. Qed.

Lemma Forall_unhandled (P : action -> Prop) (r : result unit) :
  (forall e, P (UnhandledRejection e)) -> Forall P (unhandled r).
Proof. intros HP. destruct r; by repeat constructor. Qed.

Lemma step_child_of (p : process) (s s' : state) (e : event)
    (acts : list action) :
  step p s e = Some (s', acts) ->
  Forall (child_of (cwd (vars s)) (prop (dir (vars s)) "ssr")
            (stdout_for (wait (vars s)))) acts.
Proof.
  destruct s as [[c0 p0 w0 d0] c ep cp ch l t f w]. intros H.
  step_cases H; simpl in *; simplify_eq; rewrite ?Forall_app; split_and?;
    try (by apply Forall_assert); try (by apply Forall_unhandled);
    by repeat constructor.
Qed.

Lemma run_child_of (p : process) (parObj : gmap string val) (es : list event)
    (s : state) (tr : list action) :
  run p parObj es = Some (s, tr) ->
  Forall (child_of (cwd (params p parObj)) (prop (dir (params p parObj)) "ssr")
            (stdout_for (wait (params p parObj)))) tr.
Proof.
  intros Hrun.
  cut (cwd (vars s) = cwd (params p parObj)
       /\ dir (vars s) = dir (params p parObj)
       /\ wait (vars s) = wait (params p parObj)
       /\ Forall (child_of (cwd (params p parObj))
                    (prop (dir (params p parObj)) "ssr")
                    (stdout_for (wait (params p parObj)))) tr); [tauto|].
  revert es s tr Hrun.
  apply (run_invariant p parObj
           (fun s tr _ =>
              cwd (vars s) = cwd (params p parObj)
              /\ dir (vars s) = dir (params p parObj)
              /\ wait (vars s) = wait (params p parObj)
              /\ Forall (child_of (cwd (params p parObj))
                           (prop (dir (params p parObj)) "ssr")
                           (stdout_for (wait (params p parObj)))) tr)).
  - rewrite vars_generateSsg. split_and!; try done.
    unfold generateSsg, _generateSsg, throw.
    destruct (dir _); by repeat constructor.
  - intros s tr es e s' acts (Hc & Hd & Hw & Hall) Hstep.
    destruct (step_vars _ _ _ _ _ Hstep) as [-> ->].
    rewrite (step_wait _ _ _ _ _ Hstep), Forall_app.
    split_and!; try done.
    rewrite <- Hc, <- Hd, <- Hw. by eapply step_child_of.
Qed.

(** X15: The child of a run is always [node] with [dir.ssr] as its one
    argument, run in [cwd] with standard input and standard error ignored;
    its standard output is a pipe under [wait = 'stdout'], the inter-process
    channel under ['ipc'] and ignored under a numeric [wait]. *)
Theorem spawned_command
    (p : process) (parObj : gmap string val) (es : list event)
    (s : state) (tr : list action) :
  run p parObj es = Some (s, tr) ->
  let v := params p parObj in
  (wait v = VStr "stdout" ->
   Forall (child_of (cwd v) (prop (dir v) "ssr") (VStr "pipe")) tr)
  /\ (wait v = VStr "ipc" ->
      Forall (child_of (cwd v) (prop (dir v) "ssr") (VStr "ipc")) tr)
  /\ (forall ms, wait v = VNum ms ->
      Forall (child_of (cwd v) (prop (dir v) "ssr") (VStr "ignore")) tr).
Proof.
  intros Hrun v. pose proof (run_child_of _ _ _ _ _ Hrun) as Hall.
  fold v in Hall. split_and!.
  - intros Hw. by rewrite Hw in Hall.
  - intros Hw. by rewrite Hw in Hall.
  - intros ms Hw. by rewrite Hw in Hall.
Qed.

Lemma spawned_command_witness :
  exists s tr,
    run node port3000_wait50
      [pathExists_done true; ensureDir_done (Ok ())] = Some (s, tr)
    /\ Forall (child_of (VStr "/app") (VStr "dist/ssr") (VStr "ignore")) tr.
Proof.
  destruct (run _ _ _) as [[s tr]|] eqn:H;
    [|vm_compute in H; discriminate H].
  exists s, tr. split; [reflexivity|].
  destruct (spawned_command _ _ _ _ _ H) as (_ & _ & Hnum).
  exact (Hnum (Fin 50) eq_refl).
Defined.

(** ** The preparation of the output directory *)





(** ** The promise and the capture *)

Lemma after_fulfilment_seen (tr : list action) :
  after_fulfilment true tr = true.
Proof. induction tr as [|a tr IH]; simpl; [done|]. by destruct (is_capture a). Qed.

Lemma after_fulfilment_none (seen : bool) (tr : list action) :
  count is_capture tr = 0%nat -> after_fulfilment seen tr = true.
Proof.
  unfold count. revert seen. induction tr as [|a tr IH]; intros seen; simpl; [done|].
  destruct (is_capture a); simpl; [done|]. apply IH.
Qed.

Lemma after_fulfilment_app (seen : bool) (tr1 tr2 : list action) :
  after_fulfilment seen (tr1 ++ tr2)
  = after_fulfilment seen tr1
    && after_fulfilment (seen || (0 <? count is_fulfilment tr1)%nat) tr2.
Proof.
  unfold count. revert seen. induction tr1 as [|a tr1 IH]; intros seen; simpl.
  - by rewrite orb_false_r.
  - rewrite IH, <- andb_assoc.
    destruct seen, (is_fulfilment a); simpl; reflexivity.
Qed.

Lemma step_capture (p : process) (s s' : state) (e : event)
    (acts : list action) :
  step p s e = Some (s', acts) ->
  count is_capture acts = 0%nat
  \/ (timer s = true \/ listener s <> None
      \/ fetching s <> 0%nat \/ writing s <> 0%nat).
Proof.
  destruct s as [v c ep cp ch l t f w]. intros H.
  step_cases H; simpl in *; simplify_eq; count_actions;
    try (by left); right; try (destruct l; by auto); auto.
Qed.

Lemma step_fulfilment (p : process) (s s' : state) (e : event)
    (acts : list action) :
  step p s e = Some (s', acts) ->
  pc s' = Settled Fulfilled ->
  pc s = Settled Fulfilled \/ (0 < count is_fulfilment acts)%nat.
Proof.
  destruct s as [v c ep cp ch l t f w]. intros H.
  step_cases H; simpl in *; simplify_eq; count_actions;
    try (by left); try done;
    intros _; right; unfold count; simpl; lia.
Qed.

Lemma run_after_fulfilment (p : process) (parObj : gmap string val)
    (es : list event) (s : state) (tr : list action) :
  run p parObj es = Some (s, tr) ->
  after_fulfilment false tr = true.
Proof.
  intros Hrun.
  cut (returned_when_armed s
       /\ (pc s = Settled Fulfilled -> (0 < count is_fulfilment tr)%nat)
       /\ after_fulfilment false tr = true); [tauto|].
  revert es s tr Hrun.
  apply (run_invariant p parObj
           (fun s tr _ =>
              returned_when_armed s
              /\ (pc s = Settled Fulfilled -> (0 < count is_fulfilment tr)%nat)
              /\ after_fulfilment false tr = true)).
  - unfold returned_when_armed, generateSsg, _generateSsg, throw.
    destruct (dir _); simpl; split_and!; try done;
      intuition (try congruence; try lia).
  - intros s tr es e s' acts (I & Hf & Ho) Hstep.
    split; [by eapply step_returned_when_armed|]. split.
    + intros Hpc. rewrite count_app.
      destruct (step_fulfilment _ _ _ _ _ Hstep Hpc) as [Hs|Ha]; [|lia].
      specialize (Hf Hs). lia.
    + rewrite after_fulfilment_app, Ho. simpl.
      destruct (step_capture _ _ _ _ _ Hstep) as [Hnone|Harmed].
      * by apply after_fulfilment_none.
      * specialize (Hf (I Harmed)).
        destruct (Nat.ltb_spec 0 (count is_fulfilment tr)); [|lia].
        apply after_fulfilment_seen.
Qed.

(** X17: The promise of [generateSsg] is fulfilled before the capture begins:
    in the trace of every run, each fetch, each write of the document and
    each [kill] comes after the fulfilment of the promise.  A caller that
    awaits [generateSsg] resumes before [index.html] is written. *)
Theorem fulfilled_before_capture
    (p : process) (parObj : gmap string val) (es : list event)
    (s : state) (tr : list action) :
  run p parObj es = Some (s, tr) ->
  after_fulfilment false tr = true.
Proof. apply run_after_fulfilment. Qed.

Lemma fulfilled_before_capture_witness :
  exists s tr,
    run node port3000
      [pathExists_done true; ensureDir_done (Ok ()); stdout_data "ready";
       get_done (Ok "<html></html>")] = Some (s, tr)
    /\ after_fulfilment false tr = true.
Proof.
  destruct (run _ _ _) as [[s tr]|] eqn:H;
    [|vm_compute in H; discriminate H].
  exists s, tr. split; [reflexivity|].
  exact (fulfilled_before_capture _ _ _ _ _ H).
Defined.

(** ** The [ipc] strategy, in general *)

Lemma step_ipc (p : process) (s s' : state) (e : event)
    (acts : list action) :
  wait (vars s) = VStr "ipc" -> pc s <> Settled Fulfilled ->
  step p s e = Some (s', acts) ->
  pc s' <> Settled Fulfilled /\ count is_watch acts = 0%nat.
Proof.
  destruct s as [[c0 p0 w0 d0] c ep cp ch l t f w]. intros Hw Hpc H.
  simpl in *. subst w0.
  step_cases H; simpl in *; simplify_eq; count_actions; try done.
Qed.

(** X18: Under [wait = 'ipc'] no readiness callback is ever registered and the
    promise of [generateSsg] is never fulfilled. *)
Theorem ipc_never_fulfils
    (p : process) (parObj : gmap string val) (es : list event)
    (s : state) (tr : list action) :
  wait (params p parObj) = VStr "ipc" ->
  run p parObj es = Some (s, tr) ->
  pc s <> Settled Fulfilled /\ count is_watch tr = 0%nat.
Proof.
  intros Hw Hrun.
  cut (wait (vars s) = VStr "ipc" /\ pc s <> Settled Fulfilled
       /\ count is_watch tr = 0%nat); [tauto|].
  revert es s tr Hrun.
  apply (run_invariant p parObj
           (fun s tr _ =>
              wait (vars s) = VStr "ipc" /\ pc s <> Settled Fulfilled
              /\ count is_watch tr = 0%nat)).
  - rewrite vars_generateSsg, generateSsg_quiet by done.
    unfold generateSsg, _generateSsg, throw. by destruct (dir _).
  - intros s tr es e s' acts (Hw' & Hpc & Hc) Hstep.
    rewrite (step_wait _ _ _ _ _ Hstep), count_app, Hc.
    destruct (step_ipc _ _ _ _ _ Hw' Hpc Hstep) as [? ->]. done.
Qed.

Lemma ipc_never_fulfils_witness :
  exists s tr,
    run node port3000_ipc
      [pathExists_done true; ensureDir_done (Ok ()); ipc_message (VStr "ready")]
    = Some (s, tr)
    /\ pc s <> Settled Fulfilled
    /\ count is_watch tr = 0%nat.
Proof.
  destruct (run _ _ _) as [[s tr]|] eqn:H;
    [|vm_compute in H; discriminate H].
  exists s, tr. split; [reflexivity|].
  by apply ipc_never_fulfils in H.
Defined.
